(** * Help-center theme extensions: article navigation and video library

    A shallow embedding of [assets/extension-article-navigation.js]
    (the collection sorter behind the previous/next article links) and of
    the video library extension (the readiness barrier that reveals the
    gallery once every player and image is ready), with the properties of
    both stated and proved over the embedding. *)

From Stdlib Require Import List ZArith Lia Bool Arith String Ascii.
From Stdlib Require Import Permutation Sorted.
From Stdlib Require Import DecimalString DecimalZ.
Import ListNotations.

Set Implicit Arguments.

(** ** JavaScript values *)

Module Js.

(** The primitive values the two extensions compare with [===]. *)
Inductive value : Type :=
| Undefined
| Null
| Bool (b : bool)
| Num (z : Z)
| Str (s : string).

(** [a === b] on primitives (no NaN: numbers come from JSON integers). *)
Definition strict_eq (a b : value) : bool :=
  match a, b with
  | Undefined, Undefined => true
  | Null, Null => true
  | Bool x, Bool y => Bool.eqb x y
  | Num x, Num y => Z.eqb x y
  | Str x, Str y => String.eqb x y
  | _, _ => false
  end.

End Js.

(** ** Help-center entities

    Categories, sections and articles are plain JSON objects with the
    REST properties the extension reads. One record serves the three
    groups, as in the source, where all of them are untyped objects. *)

Record entity : Type := Entity {
  id : Js.value;
  name : string;
  position : Z;
  draft : Js.value;
  section_id : Js.value;
  category_id : Js.value
}.

(** A JavaScript function used as a callback: [Array.prototype.filter]
    reads the truthiness of its result on one element,
    [Array.prototype.sort] the sign of its result on two. *)
Record callback : Type := Callback {
  as_predicate : entity -> bool;
  as_comparator : entity -> entity -> Z
}.

(** ** Arrays

    Arrays are objects with identity: [reverse], [sort], [push] and
    [splice] change the array they are called on, [filter] builds a new
    one. The store maps a reference to the current content of its array. *)

Definition ref := nat.

Record store : Type := Store {
  cells : ref -> list entity;
  next : ref
}.

(** Computations that read and write the store. *)
Definition M (A : Type) : Type := store -> A * store.

Definition ret {A : Type} (a : A) : M A := fun h => (a, h).

Definition bind {A B : Type} (m : M A) (k : A -> M B) : M B :=
  fun h => let (a, h') := m h in k a h'.

Declare Scope js_scope.
Delimit Scope js_scope with js.
Notation "x <- m ;; k" := (bind m (fun x => k))
  (at level 61, m at next level, right associativity) : js_scope.
Notation "m ;; k" := (bind m (fun _ => k))
  (at level 61, right associativity) : js_scope.
Open Scope js_scope.

Definition contents (r : ref) : M (list entity) := fun h => (cells h r, h).

(** The store in which the array [r] holds [v]. *)
Definition update (h : store) (r : ref) (v : list entity) : store :=
  {| cells := fun r' => if Nat.eqb r' r then v else cells h r';
     next := next h |}.

Definition write (r : ref) (v : list entity) : M unit :=
  fun h => (tt, update h r v).

(** An array literal or the result of a copying method: a new object. *)
Definition new_array (v : list entity) : M ref :=
  fun h => (next h,
            {| cells := cells (update h (next h) v); next := S (next h) |}).

(** Insertion of [x] behind every element that does not compare greater
    than it. *)
Fixpoint insert_sorted (cmp : entity -> entity -> Z) (x : entity)
    (l : list entity) : list entity :=
  match l with
  | [] => [x]
  | y :: l' =>
      if (cmp y x <=? 0)%Z then y :: insert_sorted cmp x l'
      else x :: y :: l'
  end.

(** The order [Array.prototype.sort(cmp)] leaves: a stable sort, in
    which a comparator result [<= 0] keeps the earlier element first. *)
Definition stable_sort (cmp : entity -> entity -> Z) (l : list entity)
    : list entity :=
  fold_left (fun acc x => insert_sorted cmp x acc) l [].

(** The order [objects.sort(f)] leaves: with a function the stable sort
    above; with [undefined] the default order, which compares the string
    forms of the elements. Every plain object prints as
    "[object Object]", so the default order keeps an array of entities
    as it is. *)
Definition sorted_by (f : option callback) (l : list entity) : list entity :=
  match f with
  | Some c => stable_sort (as_comparator c) l
  | None => l
  end.

(** [l] without the element at index [i]. *)
Definition remove_at (i : nat) (l : list entity) : list entity :=
  firstn i l ++ skipn (S i) l.

Module Array.

(** [objects.filter(f)] *)
Definition filter (f : callback) (objects : ref) : M ref :=
  v <- contents objects ;; new_array (List.filter (as_predicate f) v).

(** [objects.reverse()], in place; the result is the array itself. *)
Definition reverse (objects : ref) : M ref :=
  v <- contents objects ;; write objects (rev v) ;; ret objects.

(** [objects.sort(f)], in place; the result is the array itself. *)
Definition sort (f : option callback) (objects : ref) : M ref :=
  v <- contents objects ;; write objects (sorted_by f v) ;; ret objects.

(** [objects.push(x)] *)
Definition push (objects : ref) (x : entity) : M unit :=
  v <- contents objects ;; write objects (v ++ [x]).

(** [objects.splice(i, 1)] *)
Definition splice1 (objects : ref) (i : nat) : M unit :=
  v <- contents objects ;; write objects (remove_at i v).

(** [objects.length] *)
Definition length (objects : ref) : M nat :=
  v <- contents objects ;; ret (List.length v).

(** [objects[i]], [None] standing for [undefined]. *)
Definition get (objects : ref) (i : nat) : M (option entity) :=
  v <- contents objects ;; ret (nth_error v i).

(** The visits of [objects.forEach(f)] from index [k] on, [n] of them
    left: each reads the element the array holds at that moment. *)
Fixpoint forEach_from (objects : ref) (f : entity -> M unit) (k n : nat)
    : M unit :=
  match n with
  | O => ret tt
  | S n' =>
      x <- get objects k ;;
      match x with
      | Some e => f e
      | None => ret tt
      end ;;
      forEach_from objects f (S k) n'
  end.

(** [objects.forEach(f)]: the length is read once, before the first
    visit. *)
Definition forEach (objects : ref) (f : entity -> M unit) : M unit :=
  n <- length objects ;; forEach_from objects f 0 n.

End Array.

(** ** The article navigation extension *)

Module ArticleNavigation.

(** The three entity groups of a collection, the [objectType] of the
    source. *)
Inductive group : Type := Categories | Sections | Articles.

(** What [options.filter[objectType]] or [options.sort[objectType]] can
    hold: a function, the name of a [Util] function, [null], or some
    other value. *)
Inductive setting : Type :=
| Function (f : callback)
| Named (method : string)
| IsNull
| Other.

(** The options the sorter reads. [filter] and [sort] give, for each
    group, the own property of that name when there is one. *)
Record Options : Type := {
  articleId : Js.value;
  filter : group -> option setting;
  sort : group -> option setting;
  sortOrder : string
}.

(** [function(x) { return x.draft !== true; }]; called with two
    arguments it answers for the first one, [true] counting as 1. *)
Definition not_draft : callback :=
  {| as_predicate := fun x => negb (Js.strict_eq (draft x) (Js.Bool true));
     as_comparator := fun x _ =>
       if negb (Js.strict_eq (draft x) (Js.Bool true)) then 1%Z else 0%Z |}.

(** [defaults] *)
Definition defaults : Options :=
  {| articleId := Js.Null;
     filter := fun _ => Some (Function not_draft);
     sort := fun _ => Some (Named "sortByPosition");
     sortOrder := "asc" |}.

(** The plugin instance [this]: its options and the two properties
    [_sortObjects] falls back on ([None] when the instance has no such
    property). *)
Record Plugin : Type := {
  options : Options;
  sortByPosition : option callback;
  sortByName : option callback
}.

(** A collection: the three arrays of a REST response. *)
Record Collection : Type := {
  categories : ref;
  sections : ref;
  articles : ref
}.

(** [x !== null] for a property that may be missing. *)
Definition is_not_null (x : option setting) : bool :=
  match x with
  | Some IsNull => false
  | _ => true
  end.

(** [o.hasOwnProperty(objectType)] *)
Definition hasOwnProperty (x : option setting) : bool :=
  match x with
  | Some _ => true
  | None => false
  end.

Section Sorter.

(** [Util], the theme's utility object, is not part of these sources:
    [Util method] is the function [Util[method]] when there is one. *)
Variable Util : string -> option callback.

Variable this : Plugin.

(** [_filterObjects] *)
Definition _filterObjects (objects : ref) (objectType : group) : M ref :=
  let options := options this in
  if hasOwnProperty (filter options objectType)
     && is_not_null (sort options objectType)
  then
    match filter options objectType with
    | Some (Function f) => Array.filter f objects
    | Some (Named method) =>
        match Util method with
        | Some f => Array.filter f objects
        | None => ret objects
        end
    | _ => ret objects
    end
  else ret objects.

(** [defaultSortingFunctions] *)
Definition defaultSortingFunctions (objectType : group) : option callback :=
  match objectType with
  | Categories => sortByPosition this
  | Sections => sortByPosition this
  | Articles => sortByName this
  end.

(** [_sortObjects] *)
Definition _sortObjects (objects : ref) (objectType : group) : M ref :=
  let options := options this in
  if hasOwnProperty (sort options objectType)
     && is_not_null (sort options objectType)
  then
    match sort options objectType with
    | Some (Function f) => Array.sort (Some f) objects
    | Some (Named method) =>
        match Util method with
        | Some f => Array.sort (Some f) objects
        | None => Array.sort (defaultSortingFunctions objectType) objects
        end
    | _ => Array.sort (defaultSortingFunctions objectType) objects
    end
  else Array.sort (defaultSortingFunctions objectType) objects.

(** The loop [while (i--) { ... }] of [_sortArticles], entered with the
    counter at [i]: the body runs at [i - 1], ..., [0]. *)
Fixpoint scan (articles sortedArticles : ref) (section : entity) (i : nat)
    : M unit :=
  match i with
  | O => ret tt
  | S i' =>
      a <- Array.get articles i' ;;
      match a with
      | Some article =>
          if Js.strict_eq (section_id article) (id section) then
            Array.push sortedArticles article ;;
            Array.splice1 articles i'
          else ret tt
      | None => ret tt
      end ;;
      scan articles sortedArticles section i'
  end.

(** [_sortArticles]; the result is the array it returns. *)
Definition _sortArticles (collection : Collection) : M ref :=
  c <- _filterObjects (categories collection) Categories ;;
  categories <- Array.reverse c ;;
  s <- _filterObjects (sections collection) Sections ;;
  sections <- Array.reverse s ;;
  articles <- _filterObjects (articles collection) Articles ;;
  sortedArticles <- new_array [] ;;
  articles <- _sortObjects articles Articles ;;
  sortedCategories <- _sortObjects categories Categories ;;
  Array.forEach sortedCategories (fun category =>
    sortedSections <- _sortObjects sections Sections ;;
    Array.forEach sortedSections (fun section =>
      if Js.strict_eq (category_id section) (id category) then
        i <- Array.length articles ;;
        scan articles sortedArticles section i
      else ret tt)) ;;
  if String.eqb (sortOrder (options this)) "desc"
  then ret sortedArticles
  else Array.reverse sortedArticles.

(** What a property of the template data holds. *)
Inductive slot : Type :=
| Undefined
| Null
| Object (e : entity).

(** The loop of [render] that looks for the current article, at index
    [i] of the array with [articles] still ahead: the index of the first
    match, [None] when [index] stays undefined. *)
Fixpoint find_index (articles : list entity) (i : Z) : option Z :=
  match articles with
  | [] => None
  | a :: rest =>
      if Js.strict_eq (id a) (articleId (options this)) then Some i
      else find_index rest (i + 1)%Z
  end.

(** [articles[k]] for a number [k]. *)
Definition at_index (articles : list entity) (k : Z) : slot :=
  if (k <? 0)%Z then Undefined
  else match nth_error articles (Z.to_nat k) with
       | Some e => Object e
       | None => Undefined
       end.

(** The template data of [render], before [templateData] is merged into
    it; the titles, plain copies of two options, are left out. *)
Record Data : Type := {
  currentArticle : slot;
  previousArticle : slot;
  nextArticle : slot
}.

(** The part of [render] that computes the template data from the
    sorted array. With [index] undefined, [articles[index]] is
    undefined and both comparisons, on NaN, are false. *)
Definition locate (articles : list entity) : Data :=
  let index := find_index articles 0 in
  {| currentArticle :=
       match index with
       | Some i => at_index articles i
       | None => Undefined
       end;
     previousArticle :=
       match index with
       | Some i => if (i - 1 >=? 0)%Z then at_index articles (i - 1) else Null
       | None => Null
       end;
     nextArticle :=
       match index with
       | Some i =>
           if (i + 1 <? Z.of_nat (List.length articles))%Z
           then at_index articles (i + 1) else Null
       | None => Null
       end |}.

(** [render]: the template data and the sorted array handed to the
    render event. *)
Definition render (collection : Collection) : M (Data * ref) :=
  articles <- _sortArticles collection ;;
  v <- contents articles ;;
  ret (locate v, articles).

End Sorter.

(** The store of a caller that holds a collection with the three given
    arrays, as a parsed REST response does. *)
Definition caller_store (cats secs arts : list entity) : store :=
  {| cells := fun r =>
       match r with
       | 0 => cats
       | 1 => secs
       | 2 => arts
       | _ => []
       end;
     next := 3 |}.

Definition caller_collection : Collection :=
  {| categories := 0; sections := 1; articles := 2 |}.

(** The array [_sortArticles] returns for a collection of three given
    arrays. *)
Definition sortArticles_result (Util : string -> option callback)
    (this : Plugin) (cats secs arts : list entity) : list entity :=
  let (r, h) := _sortArticles Util this caller_collection
                  (caller_store cats secs arts) in
  cells h r.

(** The store [_sortArticles] leaves. *)
Definition sortArticles_store (Util : string -> option callback)
    (this : Plugin) (cats secs arts : list entity) : store :=
  snd (_sortArticles Util this caller_collection (caller_store cats secs arts)).

(** Modelled from the spec: [Util.sortByPosition], which is not part of
    these sources; the comparator that orders by ascending position. As
    a filter callback it would receive an index for [b], whose position
    is undefined: the difference is NaN, which is falsy. *)
Definition Util_sortByPosition : callback :=
  {| as_predicate := fun _ => false;
     as_comparator := fun a b => (position a - position b)%Z |}.

(** Modelled from the spec: the [Util] object as far as the default
    options name it. *)
Definition Util_spec (method : string) : option callback :=
  if String.eqb method "sortByPosition" then Some Util_sortByPosition
  else None.

(** A plugin instance with the given options; the source defines neither
    [sortByPosition] nor [sortByName] on the plugin. *)
Definition plugin (o : Options) : Plugin :=
  {| options := o; sortByPosition := None; sortByName := None |}.

End ArticleNavigation.

(** ** The video library extension *)

Module VideoLibrary.

(** *** Strings *)

(** The white space [String.prototype.trim] removes, among the code
    units a character of [string] can hold: tab, line feed, vertical
    tab, form feed, carriage return, space and no-break space. *)
Definition is_white_space (c : ascii) : bool :=
  match nat_of_ascii c with
  | 9 | 10 | 11 | 12 | 13 | 32 | 160 => true
  | _ => false
  end.

Fixpoint trimStart (s : string) : string :=
  match s with
  | EmptyString => EmptyString
  | String c s' => if is_white_space c then trimStart s' else s
  end.

Definition reverse (s : string) : string :=
  string_of_list_ascii (rev (list_ascii_of_string s)).

(** [s.trim()] *)
Definition trim (s : string) : string :=
  reverse (trimStart (reverse (trimStart s))).

(** The pieces of [s] between the separators, [current] being the
    piece read so far. *)
Fixpoint split_from (separator : ascii) (current s : string) : list string :=
  match s with
  | EmptyString => [current]
  | String c s' =>
      if Ascii.eqb c separator
      then current :: split_from separator EmptyString s'
      else split_from separator (current ++ String c EmptyString) s'
  end.

(** [s.split(separator)] for a separator of one character. *)
Definition split (separator : ascii) (s : string) : list string :=
  split_from separator EmptyString s.

(** *** Images and promises *)

(** An [img] element as [onImagesLoaded] finds it. *)
Record Image : Type := {
  element : nat;
  naturalWidth : nat;
  complete : bool
}.

Inductive PromiseState : Type := Pending | Fulfilled | Rejected.

(** The promise [onImagesLoaded] creates for one image; the listeners
    it adds to [target] resolve it on [load] and reject it on [error]. *)
Record ImagePromise : Type := {
  target : nat;
  state : PromiseState
}.

(** [Promise.all(promises).then(onPlayersReady)]: the promises waited
    for and whether the reaction has run. *)
Record Barrier : Type := {
  promises : list ImagePromise;
  reacted : bool
}.

(** [!img.naturalWidth || !img.complete] *)
Definition not_loaded (img : Image) : bool :=
  negb (0 <? naturalWidth img) || negb (complete img).

(** [onImagesLoaded], on the images [querySelectorAll('img')] returns. *)
Definition onImagesLoaded (images : list Image) : list ImagePromise :=
  map (fun img => {| target := element img; state := Pending |})
      (List.filter not_loaded images).

(** *** The widget *)

Record Options : Type := {
  ids : string
}.

(** [defaults] *)
Definition defaults : Options := {| ids := "" |}.

(** The events the widget triggers on its element. *)
Inductive Event : Type :=
| RENDER
| PLAYER_READY (player : nat)
| PLAYERS_READY.

(** A player of the embedding API, created for one video id. *)
Record Player : Type := {
  videoId : string
}.

(** The state of one widget. [barriers] are the
    [onImagesLoaded().then(...)] calls made so far, [events] the events
    triggered so far, oldest first. *)
Record VideoLibrary : Type := {
  video_ids : list string;
  numberPlayersReady : nat;
  players : list Player;
  hidden : bool;
  barriers : list Barrier;
  events : list Event
}.

(** The widget that [initialize] leaves once [this.ids] is set. *)
Definition initialized (video_ids : list string) : VideoLibrary :=
  {| video_ids := video_ids;
     numberPlayersReady := 0;
     players := [];
     hidden := true;
     barriers := [];
     events := [RENDER] |}.

(** [initialize] *)
Definition initialize (options : Options) : VideoLibrary :=
  initialized (map trim (split "," (ids options))).

(** [createPlayer] *)
Definition createPlayer (videoId : string) : Player :=
  {| videoId := videoId |}.

(** [createPlayers] *)
Definition createPlayers (this : VideoLibrary) : VideoLibrary :=
  {| video_ids := video_ids this;
     numberPlayersReady := numberPlayersReady this;
     players := map createPlayer (video_ids this);
     hidden := hidden this;
     barriers := barriers this;
     events := events this |}.

(** [onPlayerReady], called by player [player] while the document holds
    the images [document]. *)
Definition onPlayerReady (this : VideoLibrary) (player : nat)
    (document : list Image) : VideoLibrary :=
  let n := S (numberPlayersReady this) in
  {| video_ids := video_ids this;
     numberPlayersReady := n;
     players := players this;
     hidden := hidden this;
     barriers :=
       if n =? List.length (video_ids this)
       then barriers this
              ++ [{| promises := onImagesLoaded document; reacted := false |}]
       else barriers this;
     events := events this ++ [PLAYER_READY player] |}.

(** What the browser delivers to the widget: the ready callback of a
    player, and the [load] and [error] events of an image. *)
Inductive Signal : Type :=
| PlayerReady (player : nat) (document : list Image)
| Load (img : nat)
| Error (img : nat).

(** The listeners of a promise on a [load] or [error] event; a settled
    promise stays as it is. *)
Definition settle (s : Signal) (p : ImagePromise) : ImagePromise :=
  match s, state p with
  | Load img, Pending =>
      if target p =? img then {| target := target p; state := Fulfilled |}
      else p
  | Error img, Pending =>
      if target p =? img then {| target := target p; state := Rejected |}
      else p
  | _, _ => p
  end.

Definition deliver (s : Signal) (b : Barrier) : Barrier :=
  {| promises := map (settle s) (promises b); reacted := reacted b |}.

(** The task a signal runs. *)
Definition task (this : VideoLibrary) (s : Signal) : VideoLibrary :=
  match s with
  | PlayerReady player document => onPlayerReady this player document
  | _ =>
      {| video_ids := video_ids this;
         numberPlayersReady := numberPlayersReady this;
         players := players this;
         hidden := hidden this;
         barriers := map (deliver s) (barriers this);
         events := events this |}
  end.

Definition is_fulfilled (p : ImagePromise) : bool :=
  match state p with
  | Fulfilled => true
  | _ => false
  end.

(** [Promise.all(promises)] is fulfilled when every promise is, which
    includes the empty list; one rejection rejects it, and [then] was
    given no handler for that. The reaction is due when the promise is
    fulfilled and the reaction has not run. *)
Definition due (b : Barrier) : bool :=
  forallb is_fulfilled (promises b) && negb (reacted b).

Definition react (b : Barrier) : Barrier :=
  if due b then {| promises := promises b; reacted := true |} else b.

(** [onPlayersReady]: the widget is shown and [videoLibrary:ready] is
    triggered. *)
Definition onPlayersReady (this : VideoLibrary) : VideoLibrary :=
  {| video_ids := video_ids this;
     numberPlayersReady := numberPlayersReady this;
     players := players this;
     hidden := false;
     barriers := barriers this;
     events := events this ++ [PLAYERS_READY] |}.

(** The reactions that run once a task is over: [onPlayersReady], once
    for every barrier that is due. *)
Definition reactions (this : VideoLibrary) : VideoLibrary :=
  fold_left (fun w _ => onPlayersReady w)
    (List.filter due (barriers this))
    {| video_ids := video_ids this;
       numberPlayersReady := numberPlayersReady this;
       players := players this;
       hidden := hidden this;
       barriers := map react (barriers this);
       events := events this |}.

Definition step (this : VideoLibrary) (s : Signal) : VideoLibrary :=
  reactions (task this s).

Definition run (this : VideoLibrary) (signals : list Signal) : VideoLibrary :=
  fold_left step signals this.

Definition is_players_ready (e : Event) : bool :=
  match e with
  | PLAYERS_READY => true
  | _ => false
  end.

(** How many times the widget has triggered [videoLibrary:ready]. *)
Definition ready_count (this : VideoLibrary) : nat :=
  List.length (List.filter is_players_ready (events this)).

Definition is_player_ready (s : Signal) : bool :=
  match s with
  | PlayerReady _ _ => true
  | _ => false
  end.

(** How many ready callbacks a list of signals holds. *)
Definition ready_signals (signals : list Signal) : nat :=
  List.length (List.filter is_player_ready signals).

(** The images a barrier created on [document] waits for. *)
Definition awaited (document : list Image) : list nat :=
  map target (onImagesLoaded document).

End VideoLibrary.

(** * The sorter and the barrier as functions on lists

    What the loops of the two extensions compute, the words of the
    specification, and the data of the documented examples. *)

(** ** The sorter *)

Section SorterModel.

Import ArticleNavigation.

Variable Util : string -> option callback.
Variable this : Plugin.

(** [article['section_id'] === section.id] *)
Definition belongs (section article : entity) : bool :=
  Js.strict_eq (section_id article) (id section).

(** The articles the scan for [section] leaves in the pool. *)
Definition stays (section article : entity) : bool :=
  negb (belongs section article).

(** The function [_filterObjects] filters a group with, if any. *)
Definition chosen_filter (objectType : group) : option callback :=
  if hasOwnProperty (filter (options this) objectType)
     && is_not_null (sort (options this) objectType)
  then
    match filter (options this) objectType with
    | Some (Function f) => Some f
    | Some (Named method) => Util method
    | _ => None
    end
  else None.

(** The function [_sortObjects] hands to [sort]. *)
Definition chosen_comparator (objectType : group) : option callback :=
  match sort (options this) objectType with
  | Some (Function f) => Some f
  | Some (Named method) =>
      match Util method with
      | Some f => Some f
      | None => defaultSortingFunctions this objectType
      end
  | _ => defaultSortingFunctions this objectType
  end.

(** The content of a group's working array after [_filterObjects]. *)
Definition filtered (objectType : group) (l : list entity) : list entity :=
  match chosen_filter objectType with
  | Some f => List.filter (as_predicate f) l
  | None => l
  end.

(** [section['category_id'] === category.id] *)
Definition in_category (category section : entity) : bool :=
  Js.strict_eq (category_id section) (id category).

(** The visit of one section: its articles leave the pool for the end
    of the accumulator, last first. The state is the pool and the
    accumulator. *)
Definition take (section : entity) (st : list entity * list entity)
    : list entity * list entity :=
  (List.filter (stays section) (fst st),
   snd st ++ rev (List.filter (belongs section) (fst st))).

(** The inner [forEach], over the sections [ss], for one category. *)
Definition visit_sections (category : entity) (ss : list entity)
    (st : list entity * list entity) : list entity * list entity :=
  fold_left (fun st section =>
               if in_category category section then take section st else st)
            ss st.

(** The outer [forEach], over the categories [cs]: each visit sorts the
    sections array again before it walks through it. The state is the
    sections array, the pool and the accumulator. *)
Definition visit_categories (cs : list entity)
    (st : list entity * (list entity * list entity))
    : list entity * (list entity * list entity) :=
  fold_left (fun st category =>
               let ss := sorted_by (chosen_comparator Sections) (fst st) in
               (ss, visit_sections category ss (snd st)))
            cs st.

(** The three working arrays when the loops end, from the contents of
    the caller's arrays: sections, pool of articles left, accumulator. *)
Definition loops (cats secs arts : list entity)
    : list entity * (list entity * list entity) :=
  visit_categories
    (sorted_by (chosen_comparator Categories)
       (rev (filtered Categories cats)))
    (rev (filtered Sections secs),
     (sorted_by (chosen_comparator Articles) (filtered Articles arts), [])).

(** [h'] differs from [h] at most in the arrays [rs]. *)
Definition same_except (rs : list ref) (h h' : store) : Prop :=
  next h' = next h /\ forall r, ~ In r rs -> cells h' r = cells h r.

(** The callback of the inner [forEach]. *)
Definition section_visit (articles sortedArticles : ref) (category : entity)
    (section : entity) : M unit :=
  if Js.strict_eq (category_id section) (id category) then
    i <- Array.length articles ;;
    scan articles sortedArticles section i
  else ret tt.

(** The callback of the outer [forEach]. *)
Definition category_visit (sections articles sortedArticles : ref)
    (category : entity) : M unit :=
  sortedSections <- _sortObjects Util this sections Sections ;;
  Array.forEach sortedSections
    (section_visit articles sortedArticles category).

(** [_sortArticles] from [var sortedArticles = []] on, for the three
    working arrays. *)
Definition sort_from (categories sections articles : ref) : M ref :=
  sortedArticles <- new_array [] ;;
  articles <- _sortObjects Util this articles Articles ;;
  sortedCategories <- _sortObjects Util this categories Categories ;;
  Array.forEach sortedCategories
    (category_visit sections articles sortedArticles) ;;
  if String.eqb (sortOrder (options this)) "desc"
  then ret sortedArticles
  else Array.reverse sortedArticles.

(** The sections of [category] among [ss] that claim the article. *)
Definition claimed (category : entity) (ss : list entity) (a : entity)
    : bool :=
  existsb (fun s => in_category category s && belongs s a) ss.

(** The articles some section of some category takes out of the pool. *)
Definition taken (cs ss : list entity) (a : entity) : bool :=
  existsb (fun c => existsb (fun s => in_category c s && belongs s a) ss) cs.

(** The forward two-level group-by: the categories in their order,
    under each its sections in their order, under each section its
    articles in their order. *)
Definition forward_group_by (cats secs arts : list entity) : list entity :=
  let cs := sorted_by (chosen_comparator Categories)
              (filtered Categories cats) in
  let ss := sorted_by (chosen_comparator Sections)
              (filtered Sections secs) in
  let aa := sorted_by (chosen_comparator Articles)
              (filtered Articles arts) in
  flat_map (fun c =>
    flat_map (fun s =>
      if in_category c s then List.filter (belongs s) aa else []) ss) cs.

(** [articles[i].id !== options.articleId] *)
Definition differs (a : entity) : bool :=
  negb (Js.strict_eq (id a) (articleId (options this))).

(** The last element of [l], [null] when there is none. *)
Definition last_of (l : list entity) : slot :=
  match rev l with
  | [] => Null
  | b :: _ => Object b
  end.

(** The first element of [l], [null] when there is none. *)
Definition first_of (l : list entity) : slot :=
  match l with
  | [] => Null
  | b :: _ => Object b
  end.

(** Current, previous and next article as the specification words
    them: the current article is the first one with the configured id,
    its neighbours are the elements next to it, none at a boundary;
    without a match the current article is undefined and there are no
    neighbours. *)
Inductive located (articles : list entity) : Data -> Prop :=
| located_at (pre post : list entity) (a : entity) :
    articles = pre ++ a :: post ->
    forallb differs pre = true ->
    differs a = false ->
    located articles {| currentArticle := Object a;
                        previousArticle := last_of pre;
                        nextArticle := first_of post |}
| located_nowhere :
    forallb differs articles = true ->
    located articles {| currentArticle := Undefined;
                        previousArticle := Null;
                        nextArticle := Null |}.

(** C10 as it is worded: every group that is not filtered ends as the
    caller's array reversed and then sorted. *)
Definition unfiltered_group_reversed_and_sorted
    (cats secs arts : list entity) : Prop :=
  let h' := sortArticles_store Util this cats secs arts in
  (chosen_filter Categories = None ->
   cells h' 0 = sorted_by (chosen_comparator Categories) (rev cats)) /\
  (chosen_filter Sections = None ->
   cells h' 1 = sorted_by (chosen_comparator Sections) (rev secs)) /\
  (chosen_filter Articles = None ->
   cells h' 2 = sorted_by (chosen_comparator Articles) (rev arts)).

(** Ascending position. *)
Definition by_position (a b : entity) : Prop :=
  (position a <= position b)%Z.

(** [Util.sortByPosition] as [sort] calls it. *)
Definition position_order : entity -> entity -> Z :=
  as_comparator Util_sortByPosition.

End SorterModel.

(** ** The documented collection *)

Module Example.

Import ArticleNavigation.

Definition category (i p : Z) : entity :=
  {| id := Js.Num i; name := ""; position := p; draft := Js.Undefined;
     section_id := Js.Undefined; category_id := Js.Undefined |}.

Definition section (i c p : Z) : entity :=
  {| id := Js.Num i; name := ""; position := p; draft := Js.Undefined;
     section_id := Js.Undefined; category_id := Js.Num c |}.

Definition article (i s p : Z) (d : Js.value) : entity :=
  {| id := Js.Num i; name := ""; position := p; draft := d;
     section_id := Js.Num s; category_id := Js.Undefined |}.

Definition category1 : entity := category 1 1.
Definition section10 : entity := section 10 1 1.
Definition section11 : entity := section 11 1 2.
Definition article100 : entity := article 100 10 1 Js.Undefined.
Definition article101 : entity := article 101 11 1 Js.Undefined.

(** An article of a section that is not in the collection. *)
Definition article199 : entity := article 199 99 1 Js.Undefined.

(** A draft article of section 10. *)
Definition draft102 : entity := article 102 10 2 (Js.Bool true).

(** The default options with another current article. *)
Definition at_article (i : Z) : Options :=
  {| articleId := Js.Num i;
     filter := filter defaults;
     sort := sort defaults;
     sortOrder := sortOrder defaults |}.

(** The default options without the [articles] entry of [filter]. *)
Definition articles_unfiltered : Options :=
  {| articleId := articleId defaults;
     filter := fun g => match g with
                        | Articles => None
                        | _ => filter defaults g
                        end;
     sort := sort defaults;
     sortOrder := sortOrder defaults |}.

(** The default options with [sort.articles] set to [null]. *)
Definition articles_unsorted : Options :=
  {| articleId := articleId defaults;
     filter := filter defaults;
     sort := fun g => match g with
                      | Articles => Some IsNull
                      | _ => sort defaults g
                      end;
     sortOrder := sortOrder defaults |}.

End Example.

(** ** The barrier *)

Section BarrierModel.

Import VideoLibrary.

(** The widget once the embedding API has called [createPlayers]. *)
Definition started (video_ids : list string) : VideoLibrary :=
  createPlayers (initialized video_ids).

(** How many barriers have run their reaction. *)
Definition reacted_count (bs : list Barrier) : nat :=
  List.length (List.filter reacted bs).

(** What every step keeps: no barrier exists before the counter has
    reached the number of ids, there is never more than one, and the
    ready event has been triggered once for each reaction that ran. *)
Record consistent (w : VideoLibrary) : Prop := {
  none_before :
    numberPlayersReady w < List.length (video_ids w) -> barriers w = [];
  at_most_one : List.length (barriers w) <= 1;
  one_event_each : ready_count w = reacted_count (barriers w)
}.

(** How many times [c] occurs in [s]. *)
Fixpoint occurrences (c : ascii) (s : string) : nat :=
  match s with
  | EmptyString => 0
  | String c' s' => (if Ascii.eqb c' c then 1 else 0) + occurrences c s'
  end.

(** What a step makes of a barrier that exists already. *)
Definition advance (s : Signal) (b : Barrier) : Barrier :=
  react (match s with
         | PlayerReady _ _ => b
         | _ => deliver s b
         end).

(** What the steps for the signals [l] make of a barrier. *)
Definition advance_all (l : list Signal) (b : Barrier) : Barrier :=
  fold_left (fun b s => advance s b) l b.

(** What the signals [l] make of a promise. *)
Definition settle_all (l : list Signal) (p : ImagePromise) : ImagePromise :=
  fold_left (fun p s => settle s p) l p.

(** Between two steps no reaction is due. *)
Definition at_rest (b : Barrier) : Prop := due b = false.

(** A reaction has run only for promises that are all fulfilled. *)
Definition justified (b : Barrier) : Prop :=
  reacted b = true -> forallb is_fulfilled (promises b) = true.

(** The barrier the last ready callback creates. *)
Definition created (document : list Image) : Barrier :=
  react {| promises := onImagesLoaded document; reacted := false |}.

(** C1 as it is worded: once the counter has reached the number of ids,
    the ready event is triggered as soon as every awaited image has
    loaded or has had an error. *)
Definition error_counts_as_settled : Prop :=
  forall (ids : list string) (before after : list Signal) (player : nat)
         (document : list Image),
    ready_signals before + 1 = List.length ids ->
    (forall i, In i (awaited document) ->
               In (Load i) after \/ In (Error i) after) ->
    ready_count
      (run (started ids) (before ++ PlayerReady player document :: after))
    = 1.

(** Image [i] has a [load] event among the signals [l], and no [error]
    event before it. *)
Definition loads_first (i : nat) (l : list Signal) : Prop :=
  exists l1 l2, l = l1 ++ Load i :: l2 /\ ~ In (Error i) l1.

(** The number of embeds an [ids] option configures, as C2 counts them:
    none for the empty option, otherwise one more than the option has
    commas. *)
Definition configured_embeds (ids : string) : nat :=
  if String.eqb ids "" then 0 else List.length (split "," ids).

(** C2 as it is worded, for the widget [initialize] leaves: for any
    number of configured embeds, zero included, the ready event has
    been triggered exactly once when as many ready callbacks as embeds
    have arrived and every awaited image is settled. *)
Definition fires_once_for_any_number_of_ids : Prop :=
  forall (options : Options) (signals : list Signal),
    ready_signals signals = configured_embeds (ids options) ->
    (forall before after player document,
        signals = before ++ PlayerReady player document :: after ->
        ready_signals before + 1 = configured_embeds (ids options) ->
        forall i, In i (awaited document) ->
                  In (Load i) after \/ In (Error i) after) ->
    ready_count (run (createPlayers (initialize options)) signals) = 1.

(** The same for an [ids] option that is not empty. *)
Definition fires_once_when_images_settle : Prop :=
  forall (options : Options) (signals : list Signal),
    ids options <> EmptyString ->
    ready_signals signals = configured_embeds (ids options) ->
    (forall before after player document,
        signals = before ++ PlayerReady player document :: after ->
        ready_signals before + 1 = configured_embeds (ids options) ->
        forall i, In i (awaited document) ->
                  In (Load i) after \/ In (Error i) after) ->
    ready_count (run (createPlayers (initialize options)) signals) = 1.

End BarrierModel.

(** An image that waits for its data. *)
Definition loading (i : nat) : VideoLibrary.Image :=
  {| VideoLibrary.element := i;
     VideoLibrary.naturalWidth := 0;
     VideoLibrary.complete := false |}.

(** An image that is there. *)
Definition shown (i : nat) : VideoLibrary.Image :=
  {| VideoLibrary.element := i;
     VideoLibrary.naturalWidth := 640;
     VideoLibrary.complete := true |}.

(** * Further parts of the two extensions *)

(** ** Options that differ in the order only *)

(** The plugin with [sortOrder] set to [order]. *)
Definition with_order (this : ArticleNavigation.Plugin) (order : string)
    : ArticleNavigation.Plugin :=
  {| ArticleNavigation.options :=
       {| ArticleNavigation.articleId :=
            ArticleNavigation.articleId (ArticleNavigation.options this);
          ArticleNavigation.filter :=
            ArticleNavigation.filter (ArticleNavigation.options this);
          ArticleNavigation.sort :=
            ArticleNavigation.sort (ArticleNavigation.options this);
          ArticleNavigation.sortOrder := order |};
     ArticleNavigation.sortByPosition := ArticleNavigation.sortByPosition this;
     ArticleNavigation.sortByName := ArticleNavigation.sortByName this |}.

(** The plugin with [articleId] set to [i]. *)
Definition with_article (this : ArticleNavigation.Plugin) (i : Js.value)
    : ArticleNavigation.Plugin :=
  {| ArticleNavigation.options :=
       {| ArticleNavigation.articleId := i;
          ArticleNavigation.filter :=
            ArticleNavigation.filter (ArticleNavigation.options this);
          ArticleNavigation.sort :=
            ArticleNavigation.sort (ArticleNavigation.options this);
          ArticleNavigation.sortOrder :=
            ArticleNavigation.sortOrder (ArticleNavigation.options this) |};
     ArticleNavigation.sortByPosition := ArticleNavigation.sortByPosition this;
     ArticleNavigation.sortByName := ArticleNavigation.sortByName this |}.

(** ** Joined strings *)

(** [l.join(separator)] for an array of strings. *)
Definition join (separator : string) (l : list string) : string :=
  String.concat separator l.

(** A string of white space only. *)
Definition blank (s : string) : bool :=
  forallb VideoLibrary.is_white_space (list_ascii_of_string s).

(** A string that neither starts nor ends with white space. *)
Definition tight (s : string) : Prop :=
  VideoLibrary.trimStart s = s /\
  VideoLibrary.trimStart (VideoLibrary.reverse s) = VideoLibrary.reverse s.

(** One piece of an [ids] option: an id with white space around it. *)
Record Piece : Type := {
  lead : string;
  name_of : string;
  trail : string
}.

Definition written (p : Piece) : string :=
  (lead p ++ name_of p ++ trail p)%string.

(** ** The duration of a video *)

Module Duration.

(** [String(v)] for an integer. *)
Definition to_string (v : Z) : string :=
  NilZero.string_of_int (Z.to_int v).

(** [v < 10 ? "0" + v : v]: a string or a number. *)
Definition padded (v : Z) : Js.value :=
  if (v <? 10)%Z then Js.Str ("0" ++ to_string v) else Js.Num v.

(** The string [join] makes of an element. *)
Definition text (x : Js.value) : string :=
  match x with
  | Js.Str s => s
  | Js.Num z => to_string z
  | Js.Bool true => "true"
  | Js.Bool false => "false"
  | Js.Undefined => ""
  | Js.Null => ""
  end.

(** [l.filter(f)] from index [i] on, for a callback that reads the
    element and its index. *)
Fixpoint filter_from (f : Js.value -> nat -> bool) (i : nat)
    (l : list Js.value) : list Js.value :=
  match l with
  | [] => []
  | v :: l' =>
      if f v i then v :: filter_from f (S i) l' else filter_from f (S i) l'
  end.

(** The durations this model of [getDuration] stands for: the whole
    numbers of seconds from 0 up to, not including, 2^53. Such a
    number is a JavaScript number; [String] writes it with all its
    digits and [parseInt] reads it back as it is; its quotients by 60
    and by 3600 are far enough from the next whole number for
    [Math.floor] of the rounded quotient to be the floor division. From
    10^21 on [String] writes an exponent, of which [parseInt] reads the
    leading digits only; no statement is made there. *)
Definition whole_seconds (duration : Z) : Prop :=
  (0 <= duration < 2 ^ 53)%Z.

(** [getDuration], for a player whose [playerInfo.duration] is the
    number [duration], within [whole_seconds]. [parseInt] returns it,
    [Math.floor] of a quotient is the floor division, [%] the remainder
    with the sign of the dividend. *)
Definition getDuration (duration : Z) : string :=
  let secs := duration in
  let hours := (secs / 3600)%Z in
  let minutes := Z.rem (secs / 60) 60 in
  let seconds := Z.rem secs 60 in
  join ":"
    (map text
       (filter_from
          (fun v i => negb (Js.strict_eq v (Js.Str "00")) || (0 <? i))
          0
          (map padded [hours; minutes; seconds]))).

(** A field of the duration as it is printed: two digits at least. *)
Definition field (v : Z) : string :=
  if (v <? 10)%Z then ("0" ++ to_string v)%string else to_string v.

(** The integer a field stands for. *)
Definition read (s : string) : option Z :=
  option_map Z.of_int (NilZero.int_of_string s).

End Duration.

(** ** The request for the articles *)

Module Request.

(** [getArticles], for the locale [Util.locale] and the [labels]
    option: the URL and the properties it hands to [Util.request]. *)
Definition getArticles (locale : string) (labels properties : list string)
    : string * list string :=
  let params : list string := [] in
  let url := ("/api/v2/help_center/" ++ locale
              ++ "/articles.json?include=categories,sections")%string in
  let params :=
    match labels with
    | [] => params
    | _ => params ++ [("label_names=" ++ join "," labels)%string]
    end in
  let url :=
    match params with
    | [] => url
    | _ => (url ++ "?" ++ join "&" params)%string
    end in
  (url, properties).

End Request.

(** ** Several video libraries on one page *)

Module Page.

(** [if (v)] on a primitive. *)
Definition truthy (v : Js.value) : bool :=
  match v with
  | Js.Undefined => false
  | Js.Null => false
  | Js.Bool b => b
  | Js.Num z => negb (z =? 0)%Z
  | Js.Str s => negb (String.eqb s "")
  end.

(** The options of a video library that [initialize] and
    [onPlayersReady] read. *)
Record Options : Type := {
  ids : string;
  layout : Js.value;
  playInline : Js.value;
  useLoader : Js.value
}.

(** [defaults] *)
Definition defaults : Options :=
  {| ids := "";
     layout := Js.Str "grid";
     playInline := Js.Bool false;
     useLoader := Js.Bool true |}.

(** What the window holds: whether [typeof Swiper] is ['function'], and
    whether [window.jQuery] is there with an own property [fancybox]. *)
Record Window : Type := {
  Swiper : bool;
  fancybox : bool
}.

(** One widget: the state of the barrier, [this.options], [this.loader]
    (undefined, or whether the element is still in the document),
    [this.swiper] (the [n] of the selector ['.swiper-container-n'] the
    carousel was created with) and whether the widget listens to
    [tab.shown]. *)
Record Widget : Type := {
  library : VideoLibrary.VideoLibrary;
  options : Options;
  loader : option bool;
  swiper : option nat;
  tabs : bool
}.

(** What the widgets of a page share: the counter [instances] of the
    module and [window.onYouTubeIframeAPIReady], which is
    [createPlayers] bound to one of the [widgets]. *)
Record Page : Type := {
  instances : nat;
  onYouTubeIframeAPIReady : option nat;
  widgets : list Widget
}.

Definition empty : Page :=
  {| instances := 0; onYouTubeIframeAPIReady := None; widgets := [] |}.

Definition with_layout (o : Options) (v : Js.value) : Options :=
  {| ids := ids o;
     layout := v;
     playInline := playInline o;
     useLoader := useLoader o |}.

Definition with_playInline (o : Options) (v : Js.value) : Options :=
  {| ids := ids o;
     layout := layout o;
     playInline := v;
     useLoader := useLoader o |}.

(** [['grid', 'carousel', 'tabs'].indexOf(v) !== -1] *)
Definition known_layout (v : Js.value) : bool :=
  existsb (fun x => Js.strict_eq x v)
    [Js.Str "grid"; Js.Str "carousel"; Js.Str "tabs"].

(** What [initialize] leaves in [this.options], given the [options] it
    is called with: the first test reads the argument, the others
    [this.options]. *)
Definition settled (w : Window) (this_options options : Options) : Options :=
  let o :=
    if negb (known_layout (layout options))
    then with_layout this_options (Js.Str "grid")
    else this_options in
  let o :=
    if Js.strict_eq (layout o) (Js.Str "carousel") && negb (Swiper w)
    then with_layout o (Js.Str "grid")
    else o in
  if Js.strict_eq (playInline o) (Js.Bool false) && negb (fancybox w)
  then with_playInline o (Js.Bool true)
  else o.

(** The widget [initialize] leaves: [renderLoader] sets [this.loader]
    and inserts it in the document. *)
Definition created (w : Window) (this_options options : Options) : Widget :=
  let o := settled w this_options options in
  {| library := VideoLibrary.initialize {| VideoLibrary.ids := ids options |};
     options := o;
     loader := if truthy (useLoader o) then Some true else None;
     swiper := None;
     tabs := false |}.

(** [initialize] with [loadYouTubeAPI], for a widget that comes after
    the widgets of [p]. *)
Definition initialize (w : Window) (p : Page) (this_options options : Options)
    : Page :=
  {| instances := S (instances p);
     onYouTubeIframeAPIReady := Some (List.length (widgets p));
     widgets := widgets p ++ [created w this_options options] |}.

(** [initialize] for one widget after the other, each with its
    [this.options] and the options it is called with. *)
Definition initialize_all (w : Window) (os : list (Options * Options)) : Page :=
  fold_left (fun p o => initialize w p (fst o) (snd o)) os empty.

Definition with_library (this : Widget) (l : VideoLibrary.VideoLibrary)
    : Widget :=
  {| library := l;
     options := options this;
     loader := loader this;
     swiper := swiper this;
     tabs := tabs this |}.

(** The widgets with [f] applied to widget [k]. *)
Fixpoint change (k : nat) (f : Widget -> Widget) (l : list Widget)
    : list Widget :=
  match l, k with
  | [], _ => []
  | this :: l', 0 => f this :: l'
  | this :: l', S k' => this :: change k' f l'
  end.

(** A call of [window.onYouTubeIframeAPIReady]: [createPlayers] of the
    widget it is bound to. *)
Definition apiReady (p : Page) : Page :=
  match onYouTubeIframeAPIReady p with
  | Some k =>
      {| instances := instances p;
         onYouTubeIframeAPIReady := onYouTubeIframeAPIReady p;
         widgets :=
           change k
             (fun this =>
                with_library this (VideoLibrary.createPlayers (library this)))
             (widgets p) |}
  | None => p
  end.

(** [initializeCarousel] while the counter of the module is [n]; [None]
    when [new Swiper] throws for want of such a function. *)
Definition initializeCarousel (w : Window) (n : nat) (this : Widget)
    : option Widget :=
  if Swiper w
  then Some {| library := library this;
               options := options this;
               loader := loader this;
               swiper := Some n;
               tabs := tabs this |}
  else None.

(** [initializeTabs] *)
Definition initializeTabs (this : Widget) : Widget :=
  {| library := library this;
     options := options this;
     loader := loader this;
     swiper := swiper this;
     tabs := true |}.

(** [this.loader.remove()]; [None] when [this.loader] is undefined. *)
Definition remove_loader (this : Widget) : option Widget :=
  match loader this with
  | Some _ =>
      Some {| library := library this;
              options := options this;
              loader := Some false;
              swiper := swiper this;
              tabs := tabs this |}
  | None => None
  end.

(** [onPlayersReady] while the counter of the module is [n]; [None]
    when it throws. *)
Definition onPlayersReady (w : Window) (n : nat) (this : Widget)
    : option Widget :=
  match
    (if Js.strict_eq (layout (options this)) (Js.Str "carousel")
     then initializeCarousel w n this
     else Some this)
  with
  | None => None
  | Some this1 =>
      let this2 :=
        if Js.strict_eq (layout (options this1)) (Js.Str "tabs")
        then initializeTabs this1
        else this1 in
      match
        (if truthy (useLoader (options this2))
         then remove_loader this2
         else Some this2)
      with
      | None => None
      | Some this3 =>
          Some (with_library this3
                  (VideoLibrary.onPlayersReady (library this3)))
      end
  end.

End Page.

(** ** Playing inline *)

Module Playback.

(** What a player was last told. *)
Inductive Command : Type := playVideo | stopVideo.

(** A player: whether its iframe has the class [invisible], and the
    last call of [playVideo] or [stopVideo] on it. *)
Record Player : Type := {
  invisible : bool;
  told : option Command
}.

(** A player once [onPlayerReady] has run [applyBackgroundImage] on its
    iframe. *)
Definition covered (p : Player) : Player :=
  {| invisible := true; told := told p |}.

(** [startPlayer] *)
Definition startPlayer (p : Player) : Player :=
  {| invisible := false; told := Some playVideo |}.

(** [stopPlayer] *)
Definition stopPlayer (p : Player) : Player :=
  {| invisible := true; told := Some stopVideo |}.

(** [stopAllPlayers], on [this.players]. *)
Definition stopAllPlayers (players : list Player) : list Player :=
  map stopPlayer players.

(** The players with [f] applied to player [i]. *)
Fixpoint change (i : nat) (f : Player -> Player) (l : list Player)
    : list Player :=
  match l, i with
  | [], _ => []
  | p :: l', 0 => f p :: l'
  | p :: l', S i' => p :: change i' f l'
  end.

(** What reaches the listeners: a click on the cover of player [i],
    which [onPlayerReady] listens to when [playInline] is set, a
    [slideChange] of the carousel, and a [tab.shown] of the tabs. *)
Inductive Gesture : Type :=
| Click (i : nat)
| SlideChange
| TabShown.

Definition handle (players : list Player) (g : Gesture) : list Player :=
  match g with
  | Click i => change i startPlayer (stopAllPlayers players)
  | SlideChange => stopAllPlayers players
  | TabShown => stopAllPlayers players
  end.

Definition handle_all (players : list Player) (gs : list Gesture)
    : list Player :=
  fold_left handle gs players.

Definition is_visible (p : Player) : bool := negb (invisible p).

(** How many iframes are to be seen. *)
Definition visible (players : list Player) : nat :=
  List.length (List.filter is_visible players).

(** A click on a player that is there. *)
Definition in_range (n : nat) (g : Gesture) : Prop :=
  match g with
  | Click i => i < n
  | _ => True
  end.

End Playback.

(** ** The order of the sorted articles *)

(** A two-level group-by: the categories [cs] in their order, under
    each the sections [ss] of it in their order, under each section the
    articles [articles_of] gives for it. *)
Definition grouped (cs ss : list entity)
    (articles_of : entity -> list entity) : list entity :=
  flat_map (fun c =>
    flat_map (fun s => if in_category c s then articles_of s else []) ss) cs.

(** * Properties *)

(** ** The store *)

Lemma cells_update_same (h : store) (r : ref) (v : list entity) :
  cells (update h r v) r = v.
Proof. simpl. now rewrite Nat.eqb_refl. Qed.

Lemma cells_update_other (h : store) (r r' : ref) (v : list entity) :
  r' <> r -> cells (update h r v) r' = cells h r'.
Proof. intro H. simpl. apply Nat.eqb_neq in H. now rewrite H. Qed.

Lemma next_update (h : store) (r : ref) (v : list entity) :
  next (update h r v) = next h.
Proof. reflexivity. Qed.

Lemma bind_run (A B : Type) (m : M A) (k : A -> M B) (h : store) :
  bind m k h = k (fst (m h)) (snd (m h)).
Proof. unfold bind. destruct (m h); reflexivity. Qed.

Lemma sort_run (f : option callback) (r : ref) (h : store) :
  Array.sort f r h = (r, update h r (sorted_by f (cells h r))).
Proof. reflexivity. Qed.

Lemma reverse_run (r : ref) (h : store) :
  Array.reverse r h = (r, update h r (rev (cells h r))).
Proof. reflexivity. Qed.

Lemma filter_run (f : callback) (r : ref) (h : store) :
  Array.filter f r h =
  (next h,
   {| cells := cells (update h (next h)
                       (List.filter (as_predicate f) (cells h r)));
      next := S (next h) |}).
Proof. reflexivity. Qed.

(** ** Sorting keeps the elements *)

Lemma insert_sorted_perm (cmp : entity -> entity -> Z) (x : entity)
    (l : list entity) :
  Permutation (insert_sorted cmp x l) (x :: l).
Proof.
  induction l as [|y l IH]; simpl.
  - apply Permutation_refl.
  - destruct (cmp y x <=? 0)%Z.
    + eapply perm_trans; [apply perm_skip, IH | apply perm_swap].
    + apply Permutation_refl.
Qed.

Lemma fold_insert_perm (cmp : entity -> entity -> Z) (l acc : list entity) :
  Permutation (fold_left (fun a x => insert_sorted cmp x a) l acc) (acc ++ l).
Proof.
  revert acc; induction l as [|x l IH]; intro acc; simpl.
  - rewrite app_nil_r. apply Permutation_refl.
  - eapply perm_trans; [apply IH|].
    eapply perm_trans.
    + apply Permutation_app_tail, insert_sorted_perm.
    + simpl. apply Permutation_middle.
Qed.

Lemma stable_sort_perm (cmp : entity -> entity -> Z) (l : list entity) :
  Permutation (stable_sort cmp l) l.
Proof. unfold stable_sort. apply (fold_insert_perm cmp l []). Qed.

Lemma sorted_by_perm (f : option callback) (l : list entity) :
  Permutation (sorted_by f l) l.
Proof.
  destruct f; simpl; [apply stable_sort_perm | apply Permutation_refl].
Qed.

Lemma sorted_by_In (f : option callback) (l : list entity) (x : entity) :
  In x (sorted_by f l) <-> In x l.
Proof.
  split; apply Permutation_in;
    [apply sorted_by_perm | apply Permutation_sym, sorted_by_perm].
Qed.

(** ** Array loops *)

Section Loops.

Import ArticleNavigation.

Lemma remove_at_middle (pre suf : list entity) (x : entity) :
  remove_at (List.length pre) ((pre ++ [x]) ++ suf) = pre ++ suf.
Proof.
  unfold remove_at. induction pre as [|y pre IH]; simpl.
  - reflexivity.
  - f_equal. exact IH.
Qed.

Lemma nth_error_middle (pre suf : list entity) (x : entity) :
  nth_error ((pre ++ [x]) ++ suf) (List.length pre) = Some x.
Proof.
  rewrite <- app_assoc. simpl.
  rewrite nth_error_app2, Nat.sub_diag by lia. reflexivity.
Qed.

(** One turn of the loop. *)
Lemma scan_step (articles sortedArticles : ref) (section : entity) (i : nat)
    (h : store) :
  scan articles sortedArticles section (S i) h =
  match nth_error (cells h articles) i with
  | Some article =>
      if belongs section article then
        let h1 := update h sortedArticles
                    (cells h sortedArticles ++ [article]) in
        scan articles sortedArticles section i
          (update h1 articles (remove_at i (cells h1 articles)))
      else scan articles sortedArticles section i h
  | None => scan articles sortedArticles section i h
  end.
Proof.
  simpl. unfold bind at 1. unfold Array.get, bind, contents, ret.
  destruct (nth_error (cells h articles) i) as [article|]; [|reflexivity].
  unfold belongs. destruct (Js.strict_eq (section_id article) (id section));
    reflexivity.
Qed.

(** The scan of the last [length pre] indices moves the articles of
    [section] among [pre] to the end of [sortedArticles], last first,
    and leaves every other array alone. *)
Lemma scan_spec (articles sortedArticles : ref) (section : entity) :
  articles <> sortedArticles ->
  forall (pre suf : list entity) (h : store),
    cells h articles = pre ++ suf ->
    let h' := snd (scan articles sortedArticles section (List.length pre) h) in
    cells h' articles = List.filter (stays section) pre ++ suf /\
    cells h' sortedArticles =
      cells h sortedArticles ++ rev (List.filter (belongs section) pre) /\
    (forall r, r <> articles -> r <> sortedArticles ->
               cells h' r = cells h r) /\
    next h' = next h.
Proof.
  intros Hne pre. induction pre as [|x pre IH] using rev_ind; intros suf h Hc.
  - simpl. rewrite app_nil_r. auto.
  - rewrite length_app, Nat.add_comm. simpl Nat.add. cbv zeta.
    rewrite scan_step, Hc, nth_error_middle, !filter_app.
    cbn [List.filter]. unfold stays at 2.
    destruct (belongs section x) eqn:Hb; cbn [negb]; cbv zeta.
    + rewrite cells_update_other, Hc, remove_at_middle by assumption.
      match goal with |- context [scan _ _ _ _ ?h0] => set (h1 := h0) end.
      assert (H1 : cells h1 articles = pre ++ suf)
        by (unfold h1; apply cells_update_same).
      destruct (IH suf h1 H1) as (Ha & Hs & Hf & Hn).
      rewrite Ha, Hs, app_nil_r. repeat split.
      * unfold h1. rewrite cells_update_other by congruence.
        rewrite cells_update_same, rev_app_distr, <- app_assoc. reflexivity.
      * intros r Hr1 Hr2. rewrite Hf by assumption.
        unfold h1. now rewrite !cells_update_other by assumption.
      * rewrite Hn. reflexivity.
    + assert (H1 : cells h articles = pre ++ (x :: suf))
        by (rewrite Hc, <- app_assoc; reflexivity).
      destruct (IH (x :: suf) h H1) as (Ha & Hs & Hf & Hn).
      rewrite Ha, Hs, app_nil_r, <- app_assoc. simpl. auto.
Qed.

(** When the callback leaves the array it is called on as it is,
    [forEach] runs the callback on the elements the array held at the
    start, in order. *)
Lemma forEach_from_fold (objects : ref) (f : entity -> M unit) :
  (forall e h, cells (snd (f e h)) objects = cells h objects) ->
  forall (n k : nat) (h : store),
    k + n = List.length (cells h objects) ->
    Array.forEach_from objects f k n h =
    (tt, fold_left (fun h e => snd (f e h)) (skipn k (cells h objects)) h).
Proof.
  intros Hf n. induction n as [|n IH]; intros k h Hk.
  - simpl. rewrite skipn_all2 by lia. reflexivity.
  - simpl. unfold bind at 1. unfold Array.get, bind, contents, ret.
    destruct (nth_error (cells h objects) k) as [e|] eqn:He.
    + destruct (f e h) as [[] h1] eqn:Hfe.
      assert (Hc : cells h1 objects = cells h objects).
      { specialize (Hf e h). now rewrite Hfe in Hf. }
      rewrite IH by (rewrite Hc; lia). rewrite Hc.
      apply nth_error_split in He. destruct He as (l1 & l2 & Hl & Hlen).
      rewrite Hl. subst k.
      replace (S (List.length l1)) with (List.length (l1 ++ [e]))
        by (rewrite length_app; simpl; lia).
      change (l1 ++ e :: l2) with (l1 ++ [e] ++ l2).
      rewrite app_assoc, skipn_app, Nat.sub_diag, skipn_all. simpl.
      rewrite <- app_assoc. simpl.
      rewrite skipn_app, Nat.sub_diag, skipn_all. simpl.
      rewrite Hfe. reflexivity.
    + apply nth_error_None in He. lia.
Qed.

Lemma forEach_fold (objects : ref) (f : entity -> M unit) :
  (forall e h, cells (snd (f e h)) objects = cells h objects) ->
  forall h : store,
    Array.forEach objects f h =
    (tt, fold_left (fun h e => snd (f e h)) (cells h objects) h).
Proof.
  intros Hf h. unfold Array.forEach, Array.length, bind, contents, ret.
  now rewrite (forEach_from_fold objects f Hf) by lia.
Qed.

End Loops.

(** ** What the sorter computes *)

Section SorterFacts.

Import ArticleNavigation.

Variable Util : string -> option callback.
Variable this : Plugin.

Lemma filterObjects_chosen (objects : ref) (objectType : group) :
  _filterObjects Util this objects objectType =
  match chosen_filter Util this objectType with
  | Some f => Array.filter f objects
  | None => ret objects
  end.
Proof.
  unfold _filterObjects, chosen_filter.
  destruct (hasOwnProperty _ && is_not_null _); [|reflexivity].
  destruct (filter (options this) objectType) as [[f|m| |]|]; reflexivity.
Qed.

Lemma sortObjects_chosen (objects : ref) (objectType : group) :
  _sortObjects Util this objects objectType =
  Array.sort (chosen_comparator Util this objectType) objects.
Proof.
  unfold _sortObjects, chosen_comparator.
  destruct (sort (options this) objectType) as [[f|m| |]|]; simpl;
    try reflexivity.
  destruct (Util m); reflexivity.
Qed.

Lemma same_except_refl (rs : list ref) (h : store) : same_except rs h h.
Proof. split; auto. Qed.

Lemma same_except_trans (rs : list ref) (h1 h2 h3 : store) :
  same_except rs h1 h2 -> same_except rs h2 h3 -> same_except rs h1 h3.
Proof.
  intros [Hn1 Hc1] [Hn2 Hc2]. split; [congruence|].
  intros r Hr. rewrite Hc2, Hc1 by assumption. reflexivity.
Qed.

Lemma sortArticles_unfold (collection : Collection) :
  _sortArticles Util this collection =
  (c <- _filterObjects Util this (categories collection) Categories ;;
   categories <- Array.reverse c ;;
   s <- _filterObjects Util this (sections collection) Sections ;;
   sections <- Array.reverse s ;;
   articles <- _filterObjects Util this (articles collection) Articles ;;
   sort_from Util this categories sections articles).
Proof. reflexivity. Qed.

Section Working.

Variables sections articles sortedArticles : ref.
Hypothesis sections_articles : sections <> articles.
Hypothesis sections_sorted : sections <> sortedArticles.
Hypothesis articles_sorted : articles <> sortedArticles.

Lemma section_visit_spec (category section : entity) (h : store) :
  let h' := snd (section_visit articles sortedArticles category section h) in
  (cells h' articles, cells h' sortedArticles) =
    (if in_category category section
     then take section (cells h articles, cells h sortedArticles)
     else (cells h articles, cells h sortedArticles)) /\
  same_except [articles; sortedArticles] h h'.
Proof.
  unfold section_visit, in_category.
  destruct (Js.strict_eq (category_id section) (id category)).
  - unfold bind at 1. unfold Array.length, bind, contents, ret.
    destruct (scan_spec section articles_sorted (cells h articles) [] h)
      as (Ha & Hs & Hf & Hn); [now rewrite app_nil_r|].
    cbv zeta. rewrite Ha, Hs, app_nil_r. split; [reflexivity|].
    split; [assumption|]. intros r Hr. apply Hf; intro; apply Hr; simpl; auto.
  - simpl. split; [reflexivity | apply same_except_refl].
Qed.

Lemma section_visits_spec (category : entity) (ss : list entity) (h : store) :
  let h' := fold_left
              (fun h e =>
                 snd (section_visit articles sortedArticles category e h))
              ss h in
  (cells h' articles, cells h' sortedArticles) =
    visit_sections category ss (cells h articles, cells h sortedArticles) /\
  same_except [articles; sortedArticles] h h'.
Proof.
  revert h. induction ss as [|s ss IH]; intro h; simpl.
  - split; [reflexivity | apply same_except_refl].
  - destruct (section_visit_spec category s h) as [Hv Hf].
    destruct (IH (snd (section_visit articles sortedArticles category s h)))
      as [Hv' Hf'].
    rewrite Hv'. rewrite Hv. split; [reflexivity|].
    eapply same_except_trans; eassumption.
Qed.

Lemma category_visit_spec (category : entity) (h : store) :
  let h' := snd (category_visit Util this sections articles sortedArticles
                   category h) in
  let ss := sorted_by (chosen_comparator Util this Sections)
              (cells h sections) in
  cells h' sections = ss /\
  (cells h' articles, cells h' sortedArticles) =
    visit_sections category ss (cells h articles, cells h sortedArticles) /\
  same_except [sections; articles; sortedArticles] h h'.
Proof.
  unfold category_visit.
  rewrite sortObjects_chosen, bind_run, sort_run. cbn [fst snd].
  set (ss := sorted_by (chosen_comparator Util this Sections)
               (cells h sections)).
  set (h1 := update h sections ss).
  assert (Hframe : forall e h0,
    cells (snd (section_visit articles sortedArticles category e h0)) sections
    = cells h0 sections).
  { intros e h0. destruct (section_visit_spec category e h0) as [_ [_ Hf]].
    apply Hf. simpl. intros [H|[H|[]]]; congruence. }
  rewrite (forEach_fold _ _ Hframe). cbv zeta. cbn [snd].
  assert (H1 : cells h1 sections = ss) by apply cells_update_same.
  rewrite H1.
  destruct (section_visits_spec category ss h1) as [Hv [Hn Hf]].
  repeat split.
  - rewrite Hf; [exact H1|]. simpl. intros [H|[H|[]]]; congruence.
  - rewrite Hv. unfold h1.
    rewrite !cells_update_other by congruence. reflexivity.
  - rewrite Hn. reflexivity.
  - intros r Hr. rewrite Hf.
    + unfold h1. apply cells_update_other. intro; apply Hr; simpl; auto.
    + intro H. apply Hr. simpl in *. tauto.
Qed.

Lemma category_visits_spec (cs : list entity) (h : store) :
  let h' := fold_left
              (fun h e =>
                 snd (category_visit Util this sections articles
                        sortedArticles e h))
              cs h in
  (cells h' sections, (cells h' articles, cells h' sortedArticles)) =
    visit_categories Util this cs
      (cells h sections, (cells h articles, cells h sortedArticles)) /\
  same_except [sections; articles; sortedArticles] h h'.
Proof.
  revert h. induction cs as [|c cs IH]; intro h; simpl.
  - split; [reflexivity | apply same_except_refl].
  - destruct (category_visit_spec c h) as (Hs & Hv & Hf).
    destruct (IH (snd (category_visit Util this sections articles
                         sortedArticles c h)))
      as [Hv' Hf'].
    rewrite Hv'. rewrite Hs, Hv. split; [reflexivity|].
    eapply same_except_trans; eassumption.
Qed.

End Working.

Lemma new_array_run (v : list entity) (h : store) :
  new_array v h =
  (next h, {| cells := cells (update h (next h) v); next := S (next h) |}).
Proof. reflexivity. Qed.

Lemma sort_from_run (categories sections articles : ref) (h : store) :
  categories <> sections -> categories <> articles -> sections <> articles ->
  categories < next h -> sections < next h -> articles < next h ->
  sort_from Util this categories sections articles h =
  let sa := next h in
  let h0 := {| cells := cells (update h sa []); next := S sa |} in
  let h1 := update h0 articles
              (sorted_by (chosen_comparator Util this Articles)
                 (cells h articles)) in
  let cs := sorted_by (chosen_comparator Util this Categories)
              (cells h categories) in
  let h2 := update h1 categories cs in
  (if String.eqb (sortOrder (options this)) "desc"
   then ret sa else Array.reverse sa)
    (fold_left
       (fun h e => snd (category_visit Util this sections articles sa e h))
       cs h2).
Proof.
  intros Hcs Hca Hsa Hc Hs Ha. cbv zeta. unfold sort_from.
  rewrite bind_run, new_array_run. cbn [fst snd].
  set (sa := next h).
  assert (Hc' : categories <> sa) by (unfold sa; lia).
  assert (Hs' : sections <> sa) by (unfold sa; lia).
  assert (Ha' : articles <> sa) by (unfold sa; lia).
  set (h0 := {| cells := cells (update h sa []); next := S sa |}).
  assert (H0 : forall r, cells h0 r = cells (update h sa []) r) by reflexivity.
  rewrite sortObjects_chosen, bind_run, sort_run. cbn [fst snd].
  rewrite H0, cells_update_other by assumption.
  set (h1 := update h0 articles _).
  rewrite sortObjects_chosen, bind_run, sort_run. cbn [fst snd].
  assert (H1 : cells h1 categories = cells h categories).
  { unfold h1. rewrite cells_update_other, H0, cells_update_other
      by assumption. reflexivity. }
  rewrite H1.
  set (cs := sorted_by (chosen_comparator Util this Categories)
               (cells h categories)).
  set (h2 := update h1 categories cs).
  assert (Hframe : forall e h',
    cells (snd (category_visit Util this sections articles sa e h')) categories
    = cells h' categories).
  { intros e h'.
    destruct (category_visit_spec Hsa Hs' Ha' e h') as (_ & _ & _ & Hf).
    apply Hf. simpl. intros [H|[H|[H|[]]]]; congruence. }
  rewrite bind_run, (forEach_fold _ _ Hframe). cbn [fst snd].
  assert (H2c : cells h2 categories = cs) by apply cells_update_same.
  rewrite H2c. reflexivity.
Qed.

(** The second half of [_sortArticles], on three distinct working
    arrays: the array it returns is new, and the working arrays end as
    the loops leave them. *)
Lemma sort_from_spec (categories sections articles : ref) (h : store) :
  categories <> sections -> categories <> articles -> sections <> articles ->
  categories < next h -> sections < next h -> articles < next h ->
  let res := sort_from Util this categories sections articles h in
  let cs := sorted_by (chosen_comparator Util this Categories)
              (cells h categories) in
  let st := visit_categories Util this cs
              (cells h sections,
               (sorted_by (chosen_comparator Util this Articles)
                  (cells h articles), [])) in
  fst res = next h /\
  cells (snd res) (next h) =
    (if String.eqb (sortOrder (options this)) "desc"
     then snd (snd st) else rev (snd (snd st))) /\
  cells (snd res) categories = cs /\
  cells (snd res) sections = fst st /\
  cells (snd res) articles = fst (snd st) /\
  (forall r, r <> categories -> r <> sections -> r <> articles ->
             r <> next h -> cells (snd res) r = cells h r).
Proof.
  intros Hcs Hca Hsa Hc Hs Ha.
  rewrite sort_from_run by assumption. cbv zeta.
  set (sa := next h).
  assert (Hc' : categories <> sa) by (unfold sa; lia).
  assert (Hs' : sections <> sa) by (unfold sa; lia).
  assert (Ha' : articles <> sa) by (unfold sa; lia).
  set (h0 := {| cells := cells (update h sa []); next := S sa |}).
  assert (H0 : forall r, cells h0 r = cells (update h sa []) r) by reflexivity.
  set (h1 := update h0 articles _).
  set (cs := sorted_by (chosen_comparator Util this Categories)
               (cells h categories)).
  set (h2 := update h1 categories cs).
  assert (H2c : cells h2 categories = cs) by apply cells_update_same.
  assert (H2s : cells h2 sections = cells h sections).
  { unfold h2, h1.
    rewrite !cells_update_other, H0, cells_update_other by congruence.
    reflexivity. }
  assert (H2a : cells h2 articles =
                sorted_by (chosen_comparator Util this Articles)
                  (cells h articles)).
  { unfold h2. rewrite cells_update_other by congruence.
    unfold h1. apply cells_update_same. }
  assert (H2sa : cells h2 sa = []).
  { unfold h2, h1. rewrite !cells_update_other, H0 by congruence.
    apply cells_update_same. }
  destruct (category_visits_spec Hsa Hs' Ha' cs h2) as (Hv & Hn & Hf).
  rewrite H2s, H2a, H2sa in Hv.
  set (h3 := fold_left _ cs h2) in *.
  set (st := visit_categories Util this cs _) in *.
  assert (Hv1 : cells h3 sections = fst st) by (rewrite <- Hv; reflexivity).
  assert (Hv2 : cells h3 articles = fst (snd st))
    by (rewrite <- Hv; reflexivity).
  assert (Hv3 : cells h3 sa = snd (snd st)) by (rewrite <- Hv; reflexivity).
  assert (Hrest : forall r, r <> categories -> r <> sections -> r <> articles ->
                            r <> sa -> cells h3 r = cells h r).
  { intros r R1 R2 R3 R4. rewrite Hf.
    - unfold h2, h1. rewrite !cells_update_other, H0, cells_update_other
        by congruence. reflexivity.
    - simpl. intros [H|[H|[H|[]]]]; congruence. }
  assert (H3c : cells h3 categories = cs).
  { rewrite Hf; [exact H2c|]. simpl. intros [H|[H|[H|[]]]]; congruence. }
  destruct (String.eqb (sortOrder (options this)) "desc").
  - cbn [fst snd ret]. repeat split; assumption.
  - rewrite reverse_run. cbn [fst snd]. repeat split.
    + rewrite cells_update_same. congruence.
    + rewrite cells_update_other by assumption. assumption.
    + rewrite cells_update_other by assumption. assumption.
    + rewrite cells_update_other by assumption. assumption.
    + intros r R1 R2 R3 R4. rewrite cells_update_other by assumption.
      now apply Hrest.
Qed.

Lemma sortArticles_result_eq (cats secs arts : list entity) :
  sortArticles_result Util this cats secs arts =
  cells (sortArticles_store Util this cats secs arts)
        (fst (_sortArticles Util this caller_collection
                (caller_store cats secs arts))).
Proof.
  unfold sortArticles_result, sortArticles_store.
  destruct (_sortArticles _ _ _ _); reflexivity.
Qed.

(** [_sortArticles] on a caller's collection: the array it returns holds
    the accumulator of the loops, reversed unless the order is "desc";
    an array of the caller that was filtered is as it was, one that was
    not is the working array. *)
Lemma sortArticles_spec (cats secs arts : list entity) :
  let st := loops Util this cats secs arts in
  let h' := sortArticles_store Util this cats secs arts in
  sortArticles_result Util this cats secs arts =
    (if String.eqb (sortOrder (options this)) "desc"
     then snd (snd st) else rev (snd (snd st))) /\
  cells h' 0 =
    match chosen_filter Util this Categories with
    | Some _ => cats
    | None => sorted_by (chosen_comparator Util this Categories) (rev cats)
    end /\
  cells h' 1 =
    match chosen_filter Util this Sections with
    | Some _ => secs
    | None => fst st
    end /\
  cells h' 2 =
    match chosen_filter Util this Articles with
    | Some _ => arts
    | None => fst (snd st)
    end.
Proof.
  cbv zeta. rewrite sortArticles_result_eq. unfold sortArticles_store.
  rewrite sortArticles_unfold. unfold loops, filtered.
  rewrite bind_run, filterObjects_chosen. cbn beta.
  destruct (chosen_filter Util this Categories) as [fc|];
    rewrite ?filter_run; cbn [fst snd ret];
    rewrite bind_run, reverse_run; cbn beta; cbn [fst snd];
    rewrite bind_run, filterObjects_chosen; cbn beta.
  all: destruct (chosen_filter Util this Sections) as [fs|];
    rewrite ?filter_run; cbn [fst snd ret];
    rewrite bind_run, reverse_run; cbn beta; cbn [fst snd];
    rewrite bind_run, filterObjects_chosen; cbn beta.
  all: destruct (chosen_filter Util this Articles) as [fa|];
    rewrite ?filter_run; cbn [fst snd ret].
  all: match goal with
       | |- context [sort_from Util this ?c ?s ?a ?h] =>
           let H := fresh "H" in
           assert (H := @sort_from_spec c s a h);
           cbv zeta in H;
           destruct H as (Hr & Hres & Hc & Hs & Ha & Hrest);
           [ discriminate | discriminate | discriminate
           | simpl; lia | simpl; lia | simpl; lia | ];
           rewrite Hr
       end.
  all: repeat split.
  all: try (refine (eq_trans Hres _); reflexivity).
  all: try (refine (eq_trans Hc _); reflexivity).
  all: try (refine (eq_trans Hs _); reflexivity).
  all: try (refine (eq_trans Ha _); reflexivity).
  all: refine (eq_trans (Hrest _ _ _ _ _) _);
    solve [discriminate | reflexivity].
Qed.

End SorterFacts.

(** ** Claims on the sorter *)

Section SorterClaims.

Import ArticleNavigation.

Variable Util : string -> option callback.
Variable this : Plugin.

Lemma filterObjects_contents (objects : ref) (objectType : group) (h : store) :
  let res := _filterObjects Util this objects objectType h in
  cells (snd res) (fst res) = filtered Util this objectType (cells h objects).
Proof.
  cbv zeta. rewrite filterObjects_chosen. unfold filtered.
  destruct (chosen_filter Util this objectType) as [f|]; [|reflexivity].
  rewrite filter_run. cbn [fst snd cells]. apply cells_update_same.
Qed.

Lemma visit_sections_from (c : entity) (ss : list entity)
    (pool acc : list entity) (a : entity) :
  In a (snd (visit_sections c ss (pool, acc))) ->
  In a acc \/ exists s, In s ss /\ belongs s a = true.
Proof.
  revert pool acc. induction ss as [|s ss IH]; intros pool acc; simpl.
  - auto.
  - destruct (in_category c s).
    + unfold take. cbn [fst snd]. intro H. apply IH in H.
      destruct H as [H|(s' & Hs' & Hb)].
      * apply in_app_or in H. destruct H as [H|H]; [auto|].
        right. exists s. split; [now left|].
        apply in_rev, filter_In in H. tauto.
      * right. exists s'. auto.
    + intro H. apply IH in H. destruct H as [H|(s' & Hs' & Hb)]; [auto|].
      right. exists s'. auto.
Qed.

Lemma visit_categories_from (cs ss : list entity) (pool acc : list entity)
    (a : entity) :
  In a (snd (snd (visit_categories Util this cs (ss, (pool, acc))))) ->
  In a acc \/ exists s, In s ss /\ belongs s a = true.
Proof.
  revert ss pool acc. induction cs as [|c cs IH]; intros ss pool acc; simpl.
  - auto.
  - cbn [fst snd].
    set (ss' := sorted_by (chosen_comparator Util this Sections) ss).
    destruct (visit_sections c ss' (pool, acc)) as [pool' acc'] eqn:Hv.
    intro H. apply IH in H. destruct H as [H|(s & Hs & Hb)].
    + assert (H' : In a (snd (visit_sections c ss' (pool, acc))))
        by (rewrite Hv; exact H).
      apply visit_sections_from in H'.
      destruct H' as [H'|(s & Hs & Hb)]; [auto|].
      right. exists s. split; [|assumption]. now apply sorted_by_In in Hs.
    + right. exists s. split; [|assumption]. now apply sorted_by_In in Hs.
Qed.

(** C6. An article whose [section_id] is the id of no section left by
    the sections filter is never in the array [_sortArticles] returns,
    whatever the collection and the options. *)
Theorem orphan_article_is_dropped (cats secs arts : list entity) (a : entity) :
  (forall s, In s (filtered Util this Sections secs) ->
             Js.strict_eq (section_id a) (id s) = false) ->
  ~ In a (sortArticles_result Util this cats secs arts).
Proof.
  intros Hno Hin.
  destruct (sortArticles_spec Util this cats secs arts) as (Hres & _).
  rewrite Hres in Hin. unfold loops in Hin.
  assert (H : In a (snd (snd (visit_categories Util this
             (sorted_by (chosen_comparator Util this Categories)
                (rev (filtered Util this Categories cats)))
             (rev (filtered Util this Sections secs),
              (sorted_by (chosen_comparator Util this Articles)
                 (filtered Util this Articles arts), [])))))).
  { destruct (String.eqb _ _); [assumption | now apply in_rev]. }
  apply visit_categories_from in H. destruct H as [[]|(s & Hs & Hb)].
  apply in_rev in Hs. apply Hno in Hs. unfold belongs in Hb. congruence.
Qed.

End SorterClaims.

Lemma orphan_article_is_dropped_witness :
  ~ In Example.article199
      (ArticleNavigation.sortArticles_result ArticleNavigation.Util_spec
         (ArticleNavigation.plugin ArticleNavigation.defaults)
         [Example.category1] [Example.section10; Example.section11]
         [Example.article100; Example.article199; Example.article101]).
Proof.
  apply orphan_article_is_dropped.
  intros s H. vm_compute in H.
  destruct H as [H|[H|[]]]; rewrite <- H; reflexivity.
Defined.

Section RenderClaims.

Import ArticleNavigation.

Variable Util : string -> option callback.
Variable this : Plugin.

Lemma at_index_middle (pre post : list entity) (a : entity) :
  at_index (pre ++ a :: post) (Z.of_nat (List.length pre)) = Object a.
Proof.
  unfold at_index.
  destruct (Z.of_nat (List.length pre) <? 0)%Z eqn:H;
    [apply Z.ltb_lt in H; lia|].
  rewrite Nat2Z.id, nth_error_app2, Nat.sub_diag by lia. reflexivity.
Qed.

Lemma find_index_spec (articles : list entity) (i : Z) :
  match find_index this articles i with
  | Some k =>
      exists pre a post,
        articles = pre ++ a :: post /\
        forallb (differs this) pre = true /\
        differs this a = false /\
        k = (i + Z.of_nat (List.length pre))%Z
  | None => forallb (differs this) articles = true
  end.
Proof.
  revert i. induction articles as [|b rest IH]; intro i; simpl.
  - reflexivity.
  - destruct (Js.strict_eq (id b) (articleId (options this))) eqn:Hb.
    + exists [], b, rest. unfold differs. rewrite Hb. simpl.
      repeat split. lia.
    + specialize (IH (i + 1)%Z).
      destruct (find_index this rest (i + 1)) as [k|].
      * destruct IH as (pre & a & post & -> & Hpre & Ha & ->).
        exists (b :: pre), a, post. simpl. unfold differs at 1.
        rewrite Hb, Hpre. simpl. repeat split; [assumption | lia].
      * unfold differs at 1. rewrite Hb. simpl. exact IH.
Qed.

Lemma locate_located (articles : list entity) :
  located this articles (locate this articles).
Proof.
  unfold locate. pose proof (find_index_spec articles 0) as H.
  destruct (find_index this articles 0) as [k|].
  - destruct H as (pre & a & post & -> & Hpre & Ha & ->).
    rewrite Z.add_0_l, at_index_middle.
    replace (if (Z.of_nat (List.length pre) - 1 >=? 0)%Z
             then at_index (pre ++ a :: post) (Z.of_nat (List.length pre) - 1)
             else Null) with (last_of pre).
    replace (if (Z.of_nat (List.length pre) + 1
                 <? Z.of_nat (List.length (pre ++ a :: post)))%Z
             then at_index (pre ++ a :: post) (Z.of_nat (List.length pre) + 1)
             else Null) with (first_of post).
    + now apply located_at.
    + rewrite length_app. simpl List.length. destruct post as [|b post].
      * simpl.
        destruct (_ <? _)%Z eqn:H; [apply Z.ltb_lt in H; lia | reflexivity].
      * simpl List.length.
        destruct (_ <? _)%Z eqn:H; [|apply Z.ltb_ge in H; lia].
        change (pre ++ a :: b :: post) with (pre ++ [a] ++ b :: post).
        rewrite app_assoc.
        replace (Z.of_nat (List.length pre) + 1)%Z
          with (Z.of_nat (List.length (pre ++ [a])))
          by (rewrite length_app; simpl; lia).
        now rewrite at_index_middle.
    + unfold last_of. destruct pre as [|b pre] using rev_ind.
      * reflexivity.
      * rewrite rev_app_distr. simpl rev. cbn [app].
        rewrite length_app. simpl List.length.
        replace (Z.of_nat (List.length pre + 1) - 1 >=? 0)%Z with true
          by (symmetry; apply Z.geb_le; lia).
        rewrite <- app_assoc.
        replace (Z.of_nat (List.length pre + 1) - 1)%Z
          with (Z.of_nat (List.length pre)) by lia.
        change (pre ++ [b] ++ a :: post) with (pre ++ b :: a :: post).
        now rewrite at_index_middle.
  - now apply located_nowhere.
Qed.

(** C5. The template data of [render] hold, for the sorted array: as
    current article the first element whose id is [===] the configured
    id, as previous and next article the elements before and after it,
    [null] at a boundary; and when no element has that id, [undefined]
    as current article and [null] for both neighbours. *)
Theorem render_locates_current_article (collection : Collection) (h : store) :
  let res := render Util this collection h in
  let sorted := _sortArticles Util this collection h in
  snd (fst res) = fst sorted /\
  located this (cells (snd sorted) (fst sorted)) (fst (fst res)).
Proof.
  cbv zeta. unfold render. rewrite bind_run. unfold bind, contents, ret.
  cbn [fst snd]. split; [reflexivity | apply locate_located].
Qed.

End RenderClaims.

(** ** The default order of articles *)

Section DefaultOrder.

Import ArticleNavigation.

Lemma insert_by_position_HdRel (x y : entity) (l : list entity) :
  by_position y x -> HdRel by_position y l ->
  HdRel by_position y (insert_sorted position_order x l).
Proof.
  intros Hyx Hl. destruct l as [|z l]; simpl.
  - constructor. exact Hyx.
  - destruct (position_order z x <=? 0)%Z; constructor.
    + now inversion Hl.
    + exact Hyx.
Qed.

Lemma insert_by_position_sorted (x : entity) (l : list entity) :
  Sorted by_position l -> Sorted by_position (insert_sorted position_order x l).
Proof.
  induction l as [|y l IH]; intro Hs; simpl.
  - repeat constructor.
  - inversion Hs as [|? ? Hs' Hd]; subst.
    destruct (position_order y x <=? 0)%Z eqn:Hc.
    + constructor; [now apply IH|].
      apply insert_by_position_HdRel; [|assumption].
      apply Z.leb_le in Hc. unfold position_order in Hc. simpl in Hc.
      unfold by_position. lia.
    + constructor; [assumption|]. constructor.
      apply Z.leb_gt in Hc. unfold position_order in Hc. simpl in Hc.
      unfold by_position. lia.
Qed.

Lemma fold_insert_by_position_sorted (l acc : list entity) :
  Sorted by_position acc ->
  Sorted by_position
    (fold_left (fun a x => insert_sorted position_order x a) l acc).
Proof.
  revert acc. induction l as [|x l IH]; intros acc Hs; simpl.
  - exact Hs.
  - apply IH, insert_by_position_sorted, Hs.
Qed.

Lemma by_position_trans : Relations_1.Transitive by_position.
Proof. intros a b c. unfold by_position. lia. Qed.

Lemma sort_by_position_sorted (l : list entity) :
  StronglySorted by_position (stable_sort position_order l).
Proof.
  apply Sorted_StronglySorted; [exact by_position_trans|].
  apply fold_insert_by_position_sorted. constructor.
Qed.

(** C8. With the default options, and [Util.sortByPosition] being the
    position comparator, [_sortObjects] sorts the articles array in
    place by ascending position, whatever the plugin holds as
    [sortByName]: the fallback of that name is not consulted. *)
Theorem default_article_order_is_by_position
    (Util : string -> option callback) (this : Plugin)
    (articles : ref) (h : store) :
  options this = defaults ->
  Util "sortByPosition"%string = Some Util_sortByPosition ->
  let res := _sortObjects Util this articles Articles h in
  let sorted := cells (snd res) articles in
  fst res = articles /\
  sorted = stable_sort (fun a b => (position a - position b)%Z)
             (cells h articles) /\
  StronglySorted by_position sorted /\
  Permutation sorted (cells h articles).
Proof.
  intros Ho Hu. cbv zeta. unfold _sortObjects. rewrite Ho. simpl.
  rewrite Hu, sort_run. cbn [fst snd]. rewrite cells_update_same.
  split; [reflexivity|]. split; [reflexivity|]. split.
  - apply sort_by_position_sorted.
  - apply stable_sort_perm.
Qed.

End DefaultOrder.

Lemma default_article_order_is_by_position_witness :
  let h := ArticleNavigation.caller_store []
             []
             [Example.article 1 10 2 Js.Null; Example.article 2 10 1 Js.Null] in
  let res := ArticleNavigation._sortObjects ArticleNavigation.Util_spec
               (ArticleNavigation.plugin ArticleNavigation.defaults)
               2 ArticleNavigation.Articles h in
  let sorted := cells (snd res) 2 in
  fst res = 2 /\
  sorted = stable_sort (fun a b => (position a - position b)%Z) (cells h 2) /\
  StronglySorted by_position sorted /\
  Permutation sorted (cells h 2).
Proof.
  apply (@default_article_order_is_by_position ArticleNavigation.Util_spec
           (ArticleNavigation.plugin ArticleNavigation.defaults)); reflexivity.
Defined.

(** ** The order of the documented collection *)

(** C4. On the documented collection, with the default options and the
    position comparator, [_sortArticles] returns article 101 before
    article 100, whereas the forward two-level group-by gives article
    100 before article 101: sorting after the early [reverse] undoes it,
    so the final [reverse] leaves categories and sections in descending
    order. *)
Theorem documented_collection_comes_out_reversed :
  ArticleNavigation.sortArticles_result ArticleNavigation.Util_spec
    (ArticleNavigation.plugin ArticleNavigation.defaults)
    [Example.category1] [Example.section10; Example.section11]
    [Example.article100; Example.article101]
  = [Example.article101; Example.article100] /\
  forward_group_by ArticleNavigation.Util_spec
    (ArticleNavigation.plugin ArticleNavigation.defaults)
    [Example.category1] [Example.section10; Example.section11]
    [Example.article100; Example.article101]
  = [Example.article100; Example.article101].
Proof. split; vm_compute; reflexivity. Qed.

(** Were [Util.sortByPosition] not a function, [sort] would be called
    with the missing [sortByPosition] and [sortByName] of the plugin,
    which order nothing: articles given out of position order would
    come out as given. *)
Example without_comparator_nothing_is_sorted :
  ArticleNavigation.sortArticles_result (fun _ => None)
    (ArticleNavigation.plugin ArticleNavigation.defaults)
    [Example.category1] [Example.section10]
    [Example.article 101 10 2 Js.Undefined;
     Example.article 100 10 1 Js.Undefined]
  = [Example.article 101 10 2 Js.Undefined;
     Example.article 100 10 1 Js.Undefined].
Proof. vm_compute. reflexivity. Qed.

(** On the documented collection with article 101 as the current
    article, [render] finds no previous article and article 100 as the
    next one. *)
Example documented_collection_neighbours :
  fst (fst (ArticleNavigation.render ArticleNavigation.Util_spec
              (ArticleNavigation.plugin (Example.at_article 101))
              ArticleNavigation.caller_collection
              (ArticleNavigation.caller_store
                 [Example.category1] [Example.section10; Example.section11]
                 [Example.article100; Example.article101])))
  = {| ArticleNavigation.currentArticle :=
         ArticleNavigation.Object Example.article101;
       ArticleNavigation.previousArticle := ArticleNavigation.Null;
       ArticleNavigation.nextArticle :=
         ArticleNavigation.Object Example.article100 |}.
Proof. vm_compute. reflexivity. Qed.

(** ** Filtering *)

(** With the default options, [_filterObjects] copies a group without
    its drafts. *)
Lemma default_filter_excludes_drafts (Util : string -> option callback)
    (this : ArticleNavigation.Plugin) (g : ArticleNavigation.group)
    (l : list entity) :
  ArticleNavigation.options this = ArticleNavigation.defaults ->
  filtered Util this g l =
  List.filter (fun x => negb (Js.strict_eq (draft x) (Js.Bool true))) l.
Proof.
  intro Ho. unfold filtered, chosen_filter. rewrite Ho. reflexivity.
Qed.

(** C7. With [sort.articles] set to [null] and the default filter
    function still configured for articles, [_filterObjects] does not
    call the filter: it returns the array it was given, and the draft
    article reaches the sorted array. With the default [sort] the same
    collection comes out without the draft. *)
Theorem draft_filter_skipped_when_sort_is_null :
  let this := ArticleNavigation.plugin Example.articles_unsorted in
  let h := ArticleNavigation.caller_store
             [Example.category1] [Example.section10]
             [Example.article100; Example.draft102] in
  ArticleNavigation.filter (ArticleNavigation.options this)
    ArticleNavigation.Articles
  = Some (ArticleNavigation.Function ArticleNavigation.not_draft) /\
  ArticleNavigation._filterObjects ArticleNavigation.Util_spec this 2
    ArticleNavigation.Articles h = (2, h) /\
  ArticleNavigation.sortArticles_result ArticleNavigation.Util_spec this
    [Example.category1] [Example.section10]
    [Example.article100; Example.draft102]
  = [Example.article100; Example.draft102] /\
  ArticleNavigation.sortArticles_result ArticleNavigation.Util_spec
    (ArticleNavigation.plugin ArticleNavigation.defaults)
    [Example.category1] [Example.section10]
    [Example.article100; Example.draft102]
  = [Example.article100].
Proof. repeat split; vm_compute; reflexivity. Qed.

(** ** What the sorter does to the caller's arrays *)

Section CallerArrays.

Import ArticleNavigation.

Variable Util : string -> option callback.
Variable this : Plugin.

Lemma filter_filter_both (p q : entity -> bool) (l : list entity) :
  List.filter p (List.filter q l) = List.filter (fun a => q a && p a) l.
Proof.
  induction l as [|x l IH]; simpl; [reflexivity|].
  destruct (q x); simpl; [destruct (p x)|]; now rewrite IH.
Qed.

Lemma existsb_same_elements (A : Type) (f : A -> bool) (l l' : list A) :
  (forall x, In x l <-> In x l') -> existsb f l = existsb f l'.
Proof.
  intro H. apply Bool.eq_iff_eq_true. rewrite !existsb_exists.
  split; intros (x & Hx & Hf); exists x; split; try assumption; now apply H.
Qed.

Lemma visit_sections_pool (c : entity) (ss pool acc : list entity) :
  fst (visit_sections c ss (pool, acc)) =
  List.filter (fun a => negb (claimed c ss a)) pool.
Proof.
  revert pool acc. induction ss as [|s ss IH]; intros pool acc; simpl.
  - induction pool as [|x pool IHp]; simpl; [reflexivity | now rewrite <- IHp].
  - destruct (in_category c s) eqn:Hc.
    + unfold take. cbn [fst snd]. rewrite IH, filter_filter_both.
      apply filter_ext. intro a. unfold stays, claimed. simpl.
      rewrite ?Hc. simpl. now rewrite negb_orb.
    + rewrite IH. apply filter_ext. intro a. unfold claimed. simpl.
      now rewrite ?Hc.
Qed.

Lemma taken_same_elements (cs cs' ss ss' : list entity) (a : entity) :
  (forall x, In x cs <-> In x cs') -> (forall x, In x ss <-> In x ss') ->
  taken cs ss a = taken cs' ss' a.
Proof.
  intros Hc Hs. unfold taken. rewrite (existsb_same_elements _ cs cs' Hc).
  clear Hc. induction cs' as [|c cs' IH]; simpl; [reflexivity|].
  rewrite IH. f_equal. now apply existsb_same_elements.
Qed.

Lemma visit_categories_pool (cs ss pool acc : list entity) :
  fst (snd (visit_categories Util this cs (ss, (pool, acc)))) =
  List.filter (fun a => negb (taken cs ss a)) pool.
Proof.
  revert ss pool acc. induction cs as [|c cs IH]; intros ss pool acc; simpl.
  - induction pool as [|x pool IHp]; simpl; [reflexivity | now rewrite <- IHp].
  - cbn [fst snd].
    set (ss' := sorted_by (chosen_comparator Util this Sections) ss).
    destruct (visit_sections c ss' (pool, acc)) as [pool' acc'] eqn:Hv.
    rewrite IH.
    replace pool' with (fst (visit_sections c ss' (pool, acc)))
      by (rewrite Hv; reflexivity).
    rewrite visit_sections_pool, filter_filter_both.
    apply filter_ext. intro a. rewrite <- negb_orb. f_equal.
    assert (Hss : forall x, In x ss' <-> In x ss)
      by (intro x; apply sorted_by_In).
    f_equal.
    + now apply existsb_same_elements.
    + apply taken_same_elements; [tauto | assumption].
Qed.

Lemma visit_categories_sections (cs ss : list entity)
    (st : list entity * list entity) :
  fst (visit_categories Util this cs (ss, st)) =
  Nat.iter (List.length cs)
    (sorted_by (chosen_comparator Util this Sections)) ss.
Proof.
  revert ss st. induction cs as [|c cs IH]; intros ss st; simpl.
  - reflexivity.
  - cbn [fst snd]. rewrite IH.
    change (sorted_by (chosen_comparator Util this Sections)
              (Nat.iter (List.length cs)
                 (sorted_by (chosen_comparator Util this Sections)) ss))
      with (Nat.iter (S (List.length cs))
              (sorted_by (chosen_comparator Util this Sections)) ss).
    now rewrite Nat.iter_succ_r.
Qed.

Lemma default_filter_is_chosen (g : group) :
  options this = defaults -> chosen_filter Util this g = Some not_draft.
Proof. intro Ho. unfold chosen_filter. rewrite Ho. reflexivity. Qed.

(** C10, as amended. A group that [_filterObjects] filters, which the
    default options do for the three of them, keeps the caller's array
    as it was. A group that is not filtered is worked on in the
    caller's array: the categories end reversed and then sorted; the
    sections reversed and then sorted once for every category left;
    the articles sorted, not reversed, and without the articles that a
    section of a category has claimed. *)
Theorem sortArticles_effect_on_caller (cats secs arts : list entity) :
  let h' := sortArticles_store Util this cats secs arts in
  let cs := filtered Util this Categories cats in
  let ss := filtered Util this Sections secs in
  (options this = defaults ->
   cells h' 0 = cats /\ cells h' 1 = secs /\ cells h' 2 = arts) /\
  cells h' 0 =
    match chosen_filter Util this Categories with
    | Some _ => cats
    | None => sorted_by (chosen_comparator Util this Categories) (rev cats)
    end /\
  cells h' 1 =
    match chosen_filter Util this Sections with
    | Some _ => secs
    | None => Nat.iter (List.length cs)
                (sorted_by (chosen_comparator Util this Sections)) (rev secs)
    end /\
  cells h' 2 =
    match chosen_filter Util this Articles with
    | Some _ => arts
    | None => List.filter (fun a => negb (taken cs ss a))
                (sorted_by (chosen_comparator Util this Articles) arts)
    end.
Proof.
  cbv zeta.
  destruct (sortArticles_spec Util this cats secs arts) as (_ & H0 & H1 & H2).
  cbv zeta in H0, H1, H2. split.
  - intro Ho. rewrite H0, H1, H2.
    rewrite !default_filter_is_chosen by assumption. auto.
  - split; [exact H0|]. split.
    + rewrite H1. destruct (chosen_filter Util this Sections) eqn:Hs;
        [reflexivity|].
      unfold loops. rewrite visit_categories_sections. f_equal.
      * rewrite (Permutation_length (sorted_by_perm _ _)). apply length_rev.
      * unfold filtered. now rewrite Hs.
    + rewrite H2. destruct (chosen_filter Util this Articles) eqn:Ha;
        [reflexivity|].
      unfold loops. rewrite visit_categories_pool.
      unfold filtered at 3. rewrite Ha.
      apply filter_ext. intro a. f_equal.
      apply taken_same_elements; intro x.
      * rewrite sorted_by_In. symmetry. apply in_rev.
      * symmetry. apply in_rev.
Qed.

End CallerArrays.

(** On the documented collection, with the articles not filtered, the
    caller's articles array ends empty: both articles were spliced out. *)
Lemma unfiltered_articles_are_spliced_out :
  ~ unfiltered_group_reversed_and_sorted ArticleNavigation.Util_spec
      (ArticleNavigation.plugin Example.articles_unfiltered)
      [Example.category1] [Example.section10; Example.section11]
      [Example.article100; Example.article101].
Proof.
  intros (_ & _ & H). specialize (H eq_refl). vm_compute in H. discriminate H.
Qed.

Lemma sortArticles_effect_on_caller_witness :
  let h' := ArticleNavigation.sortArticles_store ArticleNavigation.Util_spec
              (ArticleNavigation.plugin ArticleNavigation.defaults)
              [Example.category1] [Example.section10; Example.section11]
              [Example.article101; Example.article100] in
  cells h' 0 = [Example.category1] /\
  cells h' 1 = [Example.section10; Example.section11] /\
  cells h' 2 = [Example.article101; Example.article100].
Proof.
  refine (proj1 (sortArticles_effect_on_caller ArticleNavigation.Util_spec
                   (ArticleNavigation.plugin ArticleNavigation.defaults)
                   [Example.category1] [Example.section10; Example.section11]
                   [Example.article101; Example.article100]) _).
  reflexivity.
Defined.

(** ** The readiness barrier *)

Section Barrier.

Import VideoLibrary.

Lemma run_app (w : VideoLibrary) (l1 l2 : list Signal) :
  run w (l1 ++ l2) = run (run w l1) l2.
Proof. apply fold_left_app. Qed.

Lemma onPlayersReady_fold (A : Type) (l : list A) (w : VideoLibrary) :
  let w' := fold_left (fun w _ => onPlayersReady w) l w in
  video_ids w' = video_ids w /\
  numberPlayersReady w' = numberPlayersReady w /\
  barriers w' = barriers w /\
  ready_count w' = ready_count w + List.length l.
Proof.
  revert w. induction l as [|b l IH]; intro w; simpl.
  - repeat split. lia.
  - destruct (IH (onPlayersReady w)) as (H1 & H2 & H3 & H4).
    rewrite H1, H2, H3, H4. repeat split.
    unfold ready_count. simpl. rewrite filter_app, length_app. simpl. lia.
Qed.

Lemma reactions_fields (w : VideoLibrary) :
  video_ids (reactions w) = video_ids w /\
  numberPlayersReady (reactions w) = numberPlayersReady w /\
  barriers (reactions w) = map react (barriers w) /\
  ready_count (reactions w) =
    ready_count w + List.length (List.filter due (barriers w)).
Proof.
  unfold reactions.
  match goal with
  | |- context [fold_left _ ?l ?w0] =>
      destruct (onPlayersReady_fold l w0) as (H1 & H2 & H3 & H4)
  end.
  rewrite H1, H2, H3, H4. repeat split.
Qed.

Lemma video_ids_step (w : VideoLibrary) (s : Signal) :
  video_ids (step w s) = video_ids w.
Proof.
  unfold step. destruct (reactions_fields (task w s)) as (H & _).
  rewrite H. destruct s; reflexivity.
Qed.

Lemma video_ids_run (l : list Signal) (w : VideoLibrary) :
  video_ids (run w l) = video_ids w.
Proof.
  revert w. induction l as [|s l IH]; intro w; [reflexivity|].
  change (run w (s :: l)) with (run (step w s) l).
  now rewrite IH, video_ids_step.
Qed.

Lemma counter_step (w : VideoLibrary) (s : Signal) :
  numberPlayersReady (step w s) =
  numberPlayersReady w + (if is_player_ready s then 1 else 0).
Proof.
  unfold step. destruct (reactions_fields (task w s)) as (_ & H & _).
  rewrite H. destruct s; simpl; lia.
Qed.

Lemma counter_run (l : list Signal) (w : VideoLibrary) :
  numberPlayersReady (run w l) = numberPlayersReady w + ready_signals l.
Proof.
  revert w. induction l as [|s l IH]; intro w.
  - simpl. unfold ready_signals. simpl. lia.
  - change (run w (s :: l)) with (run (step w s) l).
    rewrite IH, counter_step.
    unfold ready_signals. simpl. destruct (is_player_ready s); simpl; lia.
Qed.

Lemma ready_count_app (w : VideoLibrary) (es : list Event) :
  List.length (List.filter is_players_ready (events w ++ es)) =
  ready_count w + List.length (List.filter is_players_ready es).
Proof. unfold ready_count. now rewrite filter_app, length_app. Qed.

Lemma ready_count_task (w : VideoLibrary) (s : Signal) :
  ready_count (task w s) = ready_count w.
Proof.
  destruct s; try reflexivity.
  unfold ready_count at 1. simpl. rewrite ready_count_app. simpl. lia.
Qed.

Lemma ready_count_reactions (w : VideoLibrary) :
  ready_count (reactions w) =
  ready_count w + List.length (List.filter due (barriers w)).
Proof. apply reactions_fields. Qed.

Lemma barriers_reactions (w : VideoLibrary) :
  barriers (reactions w) = map react (barriers w).
Proof. apply reactions_fields. Qed.

Lemma reacted_count_deliver (s : Signal) (bs : list Barrier) :
  reacted_count (map (deliver s) bs) = reacted_count bs.
Proof.
  unfold reacted_count. induction bs as [|b bs IH]; simpl; [reflexivity|].
  destruct (reacted b); simpl; now rewrite IH.
Qed.

Lemma reacted_count_react (bs : list Barrier) :
  reacted_count (map react bs) =
  reacted_count bs + List.length (List.filter due bs).
Proof.
  unfold reacted_count. induction bs as [|b bs IH]; [reflexivity|].
  cbn [map List.filter]. unfold react at 1.
  destruct (due b) eqn:Hd.
  - assert (Hr : reacted b = false).
    { unfold due in Hd. apply andb_prop in Hd. destruct Hd as [_ Hd].
      now apply negb_true_iff in Hd. }
    rewrite Hr. simpl. rewrite IH. lia.
  - destruct (reacted b); simpl; rewrite IH; lia.
Qed.

Lemma consistent_started (ids : list string) : consistent (started ids).
Proof. split; simpl; auto. Qed.

Lemma consistent_task (w : VideoLibrary) (s : Signal) :
  consistent w -> consistent (task w s).
Proof.
  intros [Hn Hm He]. destruct s as [p doc|i|i].
  - split; [| |rewrite ready_count_task, He];
      cbn [task onPlayerReady barriers numberPlayersReady video_ids];
      destruct (S (numberPlayersReady w) =? List.length (video_ids w)) eqn:E;
      try (apply Nat.eqb_eq in E).
    + lia.
    + intro H. apply Hn. lia.
    + rewrite Hn by lia. simpl. lia.
    + exact Hm.
    + rewrite Hn by lia. reflexivity.
    + reflexivity.
  - split; simpl.
    + intro H. now rewrite Hn.
    + now rewrite length_map.
    + rewrite reacted_count_deliver. exact He.
  - split; simpl.
    + intro H. now rewrite Hn.
    + now rewrite length_map.
    + rewrite reacted_count_deliver. exact He.
Qed.

Lemma consistent_reactions (w : VideoLibrary) :
  consistent w -> consistent (reactions w).
Proof.
  intros [Hn Hm He].
  destruct (reactions_fields w) as (Hi & Hc & Hb & Hr). split.
  - rewrite Hi, Hc, Hb. intro H. now rewrite Hn.
  - rewrite Hb. now rewrite length_map.
  - rewrite Hr, Hb, reacted_count_react. lia.
Qed.

Lemma consistent_run (l : list Signal) (w : VideoLibrary) :
  consistent w -> consistent (run w l).
Proof.
  revert w. induction l as [|s l IH]; intros w Hw; [exact Hw|].
  change (run w (s :: l)) with (run (step w s) l).
  apply IH. unfold step. now apply consistent_reactions, consistent_task.
Qed.

Lemma ready_count_monotone (l : list Signal) (w : VideoLibrary) :
  ready_count w <= ready_count (run w l).
Proof.
  revert w. induction l as [|s l IH]; intro w; [simpl; lia|].
  change (run w (s :: l)) with (run (step w s) l).
  etransitivity; [|apply IH]. unfold step.
  rewrite ready_count_reactions, ready_count_task. lia.
Qed.

Lemma ready_count_at_most_one (w : VideoLibrary) :
  consistent w -> ready_count w <= 1.
Proof.
  intros [_ Hm He]. rewrite He. unfold reacted_count.
  pose proof (filter_length_le reacted (barriers w)). lia.
Qed.

End Barrier.

(** C3. Whatever signals the widget receives, and so however many more
    ready callbacks than configured ids, [videoLibrary:ready] is
    triggered at most once: after it has been, further ready callbacks
    trigger nothing more. *)
Theorem ready_event_never_fires_twice (options : VideoLibrary.Options)
    (signals more : list VideoLibrary.Signal) :
  let w := VideoLibrary.createPlayers (VideoLibrary.initialize options) in
  VideoLibrary.ready_count (VideoLibrary.run w signals) <=
    VideoLibrary.ready_count (VideoLibrary.run w (signals ++ more)) /\
  VideoLibrary.ready_count (VideoLibrary.run w (signals ++ more)) <= 1.
Proof.
  cbv zeta. split.
  - rewrite run_app. apply ready_count_monotone.
  - apply ready_count_at_most_one, consistent_run.
    apply (consistent_started _).
Qed.

(** ** The ids option *)

Section Ids.

Import VideoLibrary.

Lemma split_from_length (separator : ascii) (s current : string) :
  List.length (split_from separator current s) = S (occurrences separator s).
Proof.
  revert current. induction s as [|c s IH]; intro current; simpl.
  - reflexivity.
  - destruct (Ascii.eqb c separator); simpl; now rewrite IH.
Qed.

(** C9. Whatever string the [ids] option holds, [initialize] leaves one
    id more than the string has commas, so never an empty list; the
    default, the empty string, leaves the one id [""]. *)
Theorem ids_option_yields_at_least_one_id (options : Options) :
  List.length (video_ids (initialize options)) =
    S (occurrences "," (ids options)) /\
  1 <= List.length (video_ids (initialize options)) /\
  video_ids (initialize options) <> [] /\
  video_ids (initialize defaults) = [EmptyString].
Proof.
  assert (H : List.length (video_ids (initialize options)) =
              S (occurrences "," (ids options))).
  { unfold initialize, initialized, split. simpl.
    now rewrite length_map, split_from_length. }
  split; [exact H|]. split; [lia|]. split; [|reflexivity].
  intro E. rewrite E in H. discriminate H.
Qed.

End Ids.

(** ** One barrier through the signals *)

Section OneBarrier.

Import VideoLibrary.

Lemma barriers_step_later (w : VideoLibrary) (s : Signal) :
  List.length (video_ids w) <= numberPlayersReady w ->
  barriers (step w s) = map (advance s) (barriers w).
Proof.
  intro H. destruct s as [p doc|i|i]; unfold step.
  - rewrite barriers_reactions. cbn [task onPlayerReady barriers].
    destruct (S (numberPlayersReady w) =? List.length (video_ids w)) eqn:E;
      [apply Nat.eqb_eq in E; lia | reflexivity].
  - rewrite barriers_reactions. cbn [task barriers]. now rewrite map_map.
  - rewrite barriers_reactions. cbn [task barriers]. now rewrite map_map.
Qed.

Lemma barriers_run_later (l : list Signal) (w : VideoLibrary) :
  List.length (video_ids w) <= numberPlayersReady w ->
  barriers (run w l) = map (advance_all l) (barriers w).
Proof.
  revert w. induction l as [|s l IH]; intros w H.
  - simpl. now rewrite map_id.
  - change (run w (s :: l)) with (run (step w s) l).
    rewrite IH, barriers_step_later, map_map by
      (rewrite ?video_ids_step, ?counter_step; lia).
    reflexivity.
Qed.

Lemma barriers_step_last_player (w : VideoLibrary) (p : nat)
    (doc : list Image) :
  S (numberPlayersReady w) = List.length (video_ids w) ->
  barriers w = [] ->
  barriers (step w (PlayerReady p doc)) =
  [react {| promises := onImagesLoaded doc; reacted := false |}].
Proof.
  intros Hn Hb. unfold step. rewrite barriers_reactions.
  cbn [task onPlayerReady barriers].
  apply Nat.eqb_eq in Hn. now rewrite Hn, Hb.
Qed.

Lemma promises_react (b : Barrier) : promises (react b) = promises b.
Proof. unfold react. destruct (due b); reflexivity. Qed.

Lemma promises_advance (s : Signal) (b : Barrier) :
  promises (advance s b) = map (settle s) (promises b).
Proof.
  unfold advance. rewrite promises_react. destruct s; try reflexivity.
  symmetry. apply map_id.
Qed.

Lemma promises_advance_all (l : list Signal) (b : Barrier) :
  promises (advance_all l b) = map (settle_all l) (promises b).
Proof.
  revert b. induction l as [|s l IH]; intro b; simpl.
  - symmetry. apply map_id.
  - unfold advance_all in IH. rewrite IH, promises_advance, map_map.
    reflexivity.
Qed.

Lemma due_react (b : Barrier) : due (react b) = false.
Proof.
  unfold react. destruct (due b) eqn:Hd; [|exact Hd].
  unfold due. simpl. apply andb_false_r.
Qed.

Lemma at_rest_advance_all (l : list Signal) (b : Barrier) :
  at_rest b -> at_rest (advance_all l b).
Proof.
  revert b. induction l as [|s l IH]; intros b Hb; simpl; [exact Hb|].
  apply IH. apply due_react.
Qed.

Lemma settle_fulfilled (s : Signal) (p : ImagePromise) :
  is_fulfilled p = true -> settle s p = p.
Proof.
  unfold is_fulfilled. destruct s, (state p) eqn:E; simpl; rewrite ?E;
    try reflexivity; discriminate.
Qed.

Lemma justified_react (b : Barrier) : justified b -> justified (react b).
Proof.
  unfold justified, react. destruct (due b) eqn:Hd; [|auto].
  simpl. intros _ _. unfold due in Hd. now apply andb_prop in Hd.
Qed.

Lemma justified_deliver (s : Signal) (b : Barrier) :
  justified b -> justified (deliver s b).
Proof.
  unfold justified. simpl. intros H Hr. specialize (H Hr).
  rewrite forallb_forall in *. intros p' Hp'.
  apply in_map_iff in Hp'. destruct Hp' as (p & <- & Hp).
  rewrite settle_fulfilled; auto.
Qed.

Lemma justified_advance_all (l : list Signal) (b : Barrier) :
  justified b -> justified (advance_all l b).
Proof.
  revert b. induction l as [|s l IH]; intros b Hb; simpl; [exact Hb|].
  apply IH. unfold advance. apply justified_react.
  destruct s; [exact Hb | now apply justified_deliver..].
Qed.

Lemma target_settle (s : Signal) (p : ImagePromise) :
  target (settle s p) = target p.
Proof.
  destruct s, (state p) eqn:E; simpl; rewrite ?E; try reflexivity;
    destruct (target p =? img); reflexivity.
Qed.

Lemma settle_settled (s : Signal) (p : ImagePromise) :
  state p <> Pending -> settle s p = p.
Proof.
  intro H. destruct s, (state p) eqn:E; simpl; rewrite ?E;
    try reflexivity; congruence.
Qed.

Lemma settle_all_settled (l : list Signal) (p : ImagePromise) :
  state p <> Pending -> settle_all l p = p.
Proof.
  intro H. induction l as [|s l IH]; simpl; [reflexivity|].
  now rewrite settle_settled.
Qed.

(** A pending promise whose image loads, and has no error, ends
    fulfilled. *)
Lemma settle_all_loaded (l : list Signal) (p : ImagePromise) :
  state p = Pending ->
  In (Load (target p)) l -> ~ In (Error (target p)) l ->
  state (settle_all l p) = Fulfilled.
Proof.
  revert p. induction l as [|s l IH]; intros p Hp Hl He; [destruct Hl|].
  simpl. destruct s as [q doc|i|i].
  - unfold settle at 1. apply IH; [assumption| |].
    + destruct Hl as [Hl|Hl]; [discriminate | exact Hl].
    + intro H. apply He. now right.
  - unfold settle at 1. rewrite Hp.
    destruct (target p =? i) eqn:E.
    + rewrite settle_all_settled; simpl; [reflexivity | discriminate].
    + apply IH; [assumption| |].
      * destruct Hl as [Hl|Hl]; [|exact Hl].
        injection Hl as Hl. apply Nat.eqb_neq in E. congruence.
      * intro H. apply He. now right.
  - unfold settle at 1. rewrite Hp.
    destruct (target p =? i) eqn:E.
    + apply Nat.eqb_eq in E. exfalso. apply He. left. now rewrite E.
    + apply IH; [assumption| |].
      * destruct Hl as [Hl|Hl]; [discriminate | exact Hl].
      * intro H. apply He. now right.
Qed.

(** A promise that is not fulfilled stays so while its image does not
    load. *)
Lemma settle_all_not_loaded (l : list Signal) (p : ImagePromise) :
  state p <> Fulfilled -> ~ In (Load (target p)) l ->
  state (settle_all l p) <> Fulfilled.
Proof.
  revert p. induction l as [|s l IH]; intros p Hp Hl; [exact Hp|].
  simpl. apply IH.
  - destruct s as [q doc|i|i]; unfold settle; destruct (state p) eqn:E;
      try congruence.
    + destruct (target p =? i) eqn:E'; simpl; [|congruence].
      apply Nat.eqb_eq in E'. exfalso. apply Hl. left. now rewrite E'.
    + destruct (target p =? i); simpl; congruence.
  - rewrite target_settle. intro H. apply Hl. now right.
Qed.

(** The error of an image that has not loaded leaves its promise
    rejected for good. *)
Lemma settle_all_error (l1 l2 : list Signal) (p : ImagePromise) :
  state p = Pending -> ~ In (Load (target p)) l1 ->
  state (settle_all (l1 ++ Error (target p) :: l2) p) = Rejected.
Proof.
  intros Hp Hl.
  assert (Happ : settle_all (l1 ++ Error (target p) :: l2) p =
                 settle_all l2 (settle (Error (target p)) (settle_all l1 p)))
    by (unfold settle_all; now rewrite fold_left_app).
  rewrite Happ. clear Happ.
  assert (Hs : state (settle_all l1 p) <> Fulfilled)
    by (apply settle_all_not_loaded; [congruence | assumption]).
  assert (Ht : target (settle_all l1 p) = target p).
  { clear. revert p. induction l1 as [|s l1 IH]; intro p; simpl; [reflexivity|].
    unfold settle_all in IH. now rewrite IH, target_settle. }
  set (p1 := settle_all l1 p) in *.
  assert (Hr : state (settle (Error (target p)) p1) = Rejected).
  { unfold settle. destruct (state p1) eqn:E; try congruence.
    rewrite Ht, Nat.eqb_refl. reflexivity. }
  rewrite settle_all_settled; [exact Hr | congruence].
Qed.

End OneBarrier.

(** ** The barrier from the last ready callback on *)

Section LoadsFirst.

Import VideoLibrary.

Lemma settle_load (p : ImagePromise) :
  state p = Pending -> state (settle (Load (target p)) p) = Fulfilled.
Proof.
  intro H. unfold settle. rewrite H, Nat.eqb_refl. reflexivity.
Qed.

Lemma settle_error (p : ImagePromise) :
  state p = Pending -> state (settle (Error (target p)) p) = Rejected.
Proof.
  intro H. unfold settle. rewrite H, Nat.eqb_refl. reflexivity.
Qed.

Lemma settle_other (s : Signal) (p : ImagePromise) :
  s <> Load (target p) -> s <> Error (target p) -> settle s p = p.
Proof.
  intros Hl He. destruct s as [q doc|i|i]; unfold settle;
    destruct (state p); try reflexivity;
    destruct (target p =? i) eqn:E; try reflexivity;
    apply Nat.eqb_eq in E; subst i; congruence.
Qed.

Lemma signal_cases (s : Signal) (i : nat) :
  s = Load i \/ s = Error i \/ (s <> Load i /\ s <> Error i).
Proof.
  destruct s as [q doc|j|j].
  - right. right. split; discriminate.
  - destruct (Nat.eq_dec j i) as [->|Hn]; [now left|].
    right. right. split; [congruence | discriminate].
  - destruct (Nat.eq_dec j i) as [->|Hn]; [right; now left|].
    right. right. split; [discriminate | congruence].
Qed.

(** A pending promise whose image has a [load] event with no [error]
    event before it ends fulfilled, whatever else arrives. *)
Lemma settle_all_loaded_first (l : list Signal) (p : ImagePromise) :
  state p = Pending -> loads_first (target p) l ->
  state (settle_all l p) = Fulfilled.
Proof.
  intros Hp (l1 & l2 & -> & He). revert p Hp He.
  induction l1 as [|s l1 IH]; intros p Hp He.
  - change (settle_all ([] ++ Load (target p) :: l2) p)
      with (settle_all l2 (settle (Load (target p)) p)).
    rewrite settle_all_settled; rewrite settle_load by assumption;
      [reflexivity | discriminate].
  - change (settle_all ((s :: l1) ++ Load (target p) :: l2) p)
      with (settle_all (l1 ++ Load (target p) :: l2) (settle s p)).
    destruct (signal_cases s (target p)) as [->|[->|[H1 H2]]].
    + rewrite settle_all_settled; rewrite settle_load by assumption;
        [reflexivity | discriminate].
    + exfalso. apply He. now left.
    + rewrite settle_other by assumption. apply IH; [assumption|].
      intro H. apply He. now right.
Qed.

(** A pending promise ends fulfilled only if its image has a [load]
    event with no [error] event before it. *)
Lemma settle_all_fulfilled (l : list Signal) (p : ImagePromise) :
  state p = Pending -> state (settle_all l p) = Fulfilled ->
  loads_first (target p) l.
Proof.
  revert p. induction l as [|s l IH]; intros p Hp Hf.
  - simpl in Hf. congruence.
  - change (settle_all (s :: l) p) with (settle_all l (settle s p)) in Hf.
    destruct (signal_cases s (target p)) as [->|[->|[H1 H2]]].
    + exists [], l. split; [reflexivity | intros []].
    + rewrite settle_all_settled in Hf;
        rewrite settle_error in * by assumption; discriminate.
    + rewrite settle_other in Hf by assumption.
      destruct (IH p Hp Hf) as (l1 & l2 & -> & He).
      exists (s :: l1), l2. split; [reflexivity|].
      intros [H|H]; [now apply H2 | now apply He].
Qed.

Lemma loads_first_longer (i : nat) (l more : list Signal) :
  loads_first i l -> loads_first i (l ++ more).
Proof.
  intros (l1 & l2 & -> & He). exists l1, (l2 ++ more).
  split; [|exact He]. now rewrite <- app_assoc.
Qed.

End LoadsFirst.

Section Completion.

Import VideoLibrary.

Variable ids : list string.
Variables before after : list Signal.
Variable player : nat.
Variable document : list Image.

(** [before] holds all ready callbacks but one. *)
Hypothesis last_player : ready_signals before + 1 = List.length ids.

Lemma nothing_before :
  let w := run (started ids) before in
  numberPlayersReady w = ready_signals before /\
  barriers w = [] /\ ready_count w = 0.
Proof.
  cbv zeta.
  assert (Hn : numberPlayersReady (run (started ids) before)
               = ready_signals before) by (rewrite counter_run; reflexivity).
  assert (Hc : consistent (run (started ids) before))
    by apply consistent_run, consistent_started.
  assert (Hb : barriers (run (started ids) before) = []).
  { apply (none_before Hc). rewrite Hn, video_ids_run. simpl. lia. }
  repeat split; try assumption.
  rewrite (one_event_each Hc), Hb. reflexivity.
Qed.

Lemma final_barrier :
  let w := run (started ids) (before ++ PlayerReady player document :: after) in
  barriers w = [advance_all after (created document)] /\
  ready_count w =
    if reacted (advance_all after (created document)) then 1 else 0.
Proof.
  cbv zeta. destruct nothing_before as (Hn & Hb & _).
  rewrite run_app.
  change (run (run (started ids) before) (PlayerReady player document :: after))
    with (run (step (run (started ids) before) (PlayerReady player document))
              after).
  set (w1 := run (started ids) before) in *.
  assert (Hids : video_ids w1 = ids) by (unfold w1; now rewrite video_ids_run).
  assert (H2 : barriers (step w1 (PlayerReady player document))
               = [created document]).
  { apply barriers_step_last_player; [|assumption]. rewrite Hn, Hids. lia. }
  assert (H3 : barriers (run (step w1 (PlayerReady player document)) after)
               = [advance_all after (created document)]).
  { rewrite barriers_run_later, H2; [reflexivity|].
    rewrite video_ids_step, counter_step, Hn, Hids. simpl. lia. }
  split; [exact H3|].
  assert (Hc : consistent (run (step w1 (PlayerReady player document)) after)).
  { apply consistent_run. unfold step.
    apply consistent_reactions, consistent_task.
    unfold w1. apply consistent_run, consistent_started. }
  rewrite (one_event_each Hc), H3. unfold reacted_count. simpl.
  destruct (reacted (advance_all after (created document))); reflexivity.
Qed.

Lemma created_promises (l : list Signal) :
  promises (advance_all l (created document)) =
  map (settle_all l) (onImagesLoaded document).
Proof.
  rewrite promises_advance_all. unfold created. now rewrite promises_react.
Qed.

Lemma awaited_promise (p : ImagePromise) :
  In p (onImagesLoaded document) ->
  state p = Pending /\ In (target p) (awaited document).
Proof.
  intro H. split.
  - unfold onImagesLoaded in H. apply in_map_iff in H.
    destruct H as (img & <- & _). reflexivity.
  - unfold awaited. now apply in_map.
Qed.

(** When every awaited image loads and none of them has an error, the
    ready event has been triggered exactly once. *)
Lemma fires_when_all_loaded :
  (forall i, In i (awaited document) ->
             In (Load i) after /\ ~ In (Error i) after) ->
  ready_count
    (run (started ids) (before ++ PlayerReady player document :: after)) = 1.
Proof.
  intro Hl. destruct final_barrier as [_ Hr]. rewrite Hr.
  assert (Hf : forallb is_fulfilled
                 (promises (advance_all after (created document)))
               = true).
  { rewrite created_promises. apply forallb_forall. intros p' Hp'.
    apply in_map_iff in Hp'. destruct Hp' as (p & <- & Hp).
    destruct (awaited_promise p Hp) as [Hs Ht].
    destruct (Hl _ Ht) as [H1 H2].
    unfold is_fulfilled. now rewrite settle_all_loaded. }
  assert (Hd : at_rest (advance_all after (created document)))
    by (apply at_rest_advance_all, due_react).
  unfold at_rest, due in Hd. rewrite Hf in Hd. simpl in Hd.
  destruct (reacted (advance_all after (created document)));
    [reflexivity|discriminate].
Qed.

(** Once the last ready callback has arrived, the ready event has been
    triggered exactly when every awaited image has had a [load] event
    with no [error] event before it. *)
Lemma ready_exactly_when_loaded_first :
  ready_count
    (run (started ids) (before ++ PlayerReady player document :: after)) = 1
  <-> (forall i, In i (awaited document) -> loads_first i after).
Proof.
  destruct final_barrier as [_ Hr]. rewrite Hr.
  set (b := advance_all after (created document)).
  split.
  - intros H1 i Hi.
    assert (Hj : justified b).
    { apply justified_advance_all, justified_react.
      unfold justified. simpl. discriminate. }
    destruct (reacted b) eqn:E; [|discriminate H1].
    specialize (Hj E). unfold b in Hj. rewrite created_promises in Hj.
    rewrite forallb_forall in Hj.
    unfold awaited in Hi. apply in_map_iff in Hi.
    destruct Hi as (p & <- & Hp).
    destruct (awaited_promise p Hp) as [Hs _].
    specialize (Hj (settle_all after p) (in_map _ _ _ Hp)).
    apply settle_all_fulfilled; [assumption|].
    unfold is_fulfilled in Hj.
    destruct (state (settle_all after p)); congruence.
  - intro Hl.
    assert (Hf : forallb is_fulfilled (promises b) = true).
    { unfold b. rewrite created_promises. apply forallb_forall.
      intros p' Hp'. apply in_map_iff in Hp'. destruct Hp' as (p & <- & Hp).
      destruct (awaited_promise p Hp) as [Hs Ht].
      unfold is_fulfilled. now rewrite settle_all_loaded_first by auto. }
    assert (Hd : at_rest b)
      by (apply at_rest_advance_all, due_react).
    unfold at_rest, due in Hd. rewrite Hf in Hd. simpl in Hd.
    destruct (reacted b); [reflexivity|discriminate].
Qed.

End Completion.

Section Rejection.

Import VideoLibrary.

Variable ids : list string.
Variables before after1 after2 : list Signal.
Variable player : nat.
Variable document : list Image.
Variable img : nat.

Hypothesis last_player : ready_signals before + 1 = List.length ids.
Hypothesis is_awaited : In img (awaited document).
Hypothesis not_loaded_yet : ~ In (Load img) after1.

(** When an awaited image has an error before it has loaded, the ready
    event is not triggered, whatever follows. *)
Lemma blocked_by_error :
  ready_count
    (run (started ids)
       (before ++ PlayerReady player document :: after1 ++ Error img :: after2))
  = 0.
Proof.
  destruct (final_barrier ids before (after1 ++ Error img :: after2) player
              document last_player) as [_ Hr].
  rewrite Hr.
  set (b := advance_all (after1 ++ Error img :: after2) (created document)).
  assert (Hj : justified b).
  { apply justified_advance_all, justified_react.
    unfold justified. simpl. discriminate. }
  destruct (reacted b) eqn:E; [|reflexivity].
  specialize (Hj E). unfold b in Hj. rewrite created_promises in Hj.
  unfold awaited in is_awaited. apply in_map_iff in is_awaited.
  destruct is_awaited as (p & Ht & Hp).
  rewrite forallb_forall in Hj.
  specialize (Hj (settle_all (after1 ++ Error img :: after2) p)
                 (in_map _ _ _ Hp)).
  destruct (awaited_promise document p Hp) as [Hs _].
  unfold is_fulfilled in Hj. rewrite <- Ht in Hj, not_loaded_yet.
  rewrite settle_all_error in Hj; [discriminate | assumption | assumption].
Qed.

End Rejection.

(** ** Claims on the barrier *)

Section BarrierClaims.

Import VideoLibrary.

(** C1, as amended. Once the counter has reached the number of ids, the
    ready event has been triggered, once, exactly when every awaited
    image has had a [load] event with no [error] event of it before:
    what arrives after that [load], an error of the same image
    included, and what happens to images that are not awaited, does not
    matter. An error is not a settlement: when an awaited image has an
    error before it has loaded, the event is not triggered, whatever
    follows. *)
Theorem image_error_blocks_ready_event (ids : list string)
    (before : list Signal) (player : nat) (document : list Image) :
  ready_signals before + 1 = List.length ids ->
  (forall after,
      ready_count
        (run (started ids) (before ++ PlayerReady player document :: after))
      = 1
      <-> (forall i, In i (awaited document) -> loads_first i after)) /\
  (forall after,
      ready_count
        (run (started ids) (before ++ PlayerReady player document :: after))
      <= 1) /\
  (forall img after1 after2,
      In img (awaited document) -> ~ In (Load img) after1 ->
      ready_count
        (run (started ids)
           (before ++ PlayerReady player document
                   :: after1 ++ Error img :: after2))
      = 0).
Proof.
  intro Hn. split; [|split].
  - intros after. now apply ready_exactly_when_loaded_first.
  - intros after.
    apply ready_count_at_most_one, consistent_run, consistent_started.
  - intros img after1 after2 Ha Hl. now apply blocked_by_error.
Qed.

Lemma nothing_until_last_player (ids : list string) (signals : list Signal) :
  ready_signals signals < List.length ids ->
  ready_count (run (started ids) signals) = 0.
Proof.
  intro H.
  assert (Hc : consistent (run (started ids) signals))
    by apply consistent_run, consistent_started.
  rewrite (one_event_each Hc), (none_before Hc); [reflexivity|].
  rewrite counter_run, video_ids_run. simpl. exact H.
Qed.

(** C2, as amended. Whatever the [ids] option, the widget [initialize]
    leaves has at least one id. The ready event is not triggered while
    fewer ready callbacks than ids have arrived. Once the last of them
    has arrived, it has been triggered exactly when every image awaited
    then has had a [load] event with no [error] event of it before, so
    only after the load of every awaited image; it then stays
    triggered, once, whatever follows; and it is never triggered
    twice. *)
Theorem ready_event_fires_once_after_players_and_images (options : Options) :
  let w := createPlayers (initialize options) in
  let N := List.length (video_ids w) in
  1 <= N /\
  (forall signals,
      ready_signals signals < N -> ready_count (run w signals) = 0) /\
  (forall before player document after,
      ready_signals before + 1 = N ->
      (ready_count (run w (before ++ PlayerReady player document :: after))
       = 1
       <-> (forall i, In i (awaited document) -> loads_first i after))) /\
  (forall before player document after more,
      ready_signals before + 1 = N ->
      (forall i, In i (awaited document) -> loads_first i after) ->
      ready_count
        (run w ((before ++ PlayerReady player document :: after) ++ more))
      = 1) /\
  (forall signals, ready_count (run w signals) <= 1).
Proof.
  cbv zeta.
  change (createPlayers (initialize options))
    with (started (map trim (split "," (ids options)))).
  set (l := map trim (split "," (ids options))).
  change (video_ids (started l)) with l.
  split; [|split; [|split; [|split]]].
  - unfold l, split. rewrite length_map, split_from_length. lia.
  - intros signals H. now apply nothing_until_last_player.
  - intros before player document after Hn.
    now apply ready_exactly_when_loaded_first.
  - intros before player document after more Hn Hl.
    rewrite <- app_assoc. cbn [app].
    apply ready_exactly_when_loaded_first; [assumption|].
    intros i Hi. now apply loads_first_longer, Hl.
  - intro signals.
    apply ready_count_at_most_one, consistent_run, consistent_started.
Qed.

End BarrierClaims.

(** One id, one image that has an error: every awaited image is
    settled, and the ready event is not triggered. *)
Lemma broken_image_blocks_ready_event : ~ error_counts_as_settled.
Proof.
  intro H.
  specialize (H ["a"%string] [] [VideoLibrary.Error 1] 0 [loading 1]).
  assert (E : VideoLibrary.ready_count
                (VideoLibrary.run (started ["a"%string])
                   ([] ++ VideoLibrary.PlayerReady 0 [loading 1]
                       :: [VideoLibrary.Error 1])) = 0) by reflexivity.
  rewrite H in E.
  - discriminate E.
  - reflexivity.
  - intros i [<-|[]]. right. left. reflexivity.
Qed.

(** The empty [ids] option, which configures no embed, and no signal:
    as many ready callbacks as embeds have arrived, no image is
    awaited, and the ready event is not triggered. And the option of
    one id, with one image that has an error: every awaited image is
    settled, and the ready event is not triggered. *)
Lemma empty_ids_option_fires_nothing :
  ~ fires_once_for_any_number_of_ids /\ ~ fires_once_when_images_settle.
Proof.
  split.
  - intro H. specialize (H VideoLibrary.defaults [] eq_refl).
    assert (E : VideoLibrary.ready_count
                  (VideoLibrary.run
                     (VideoLibrary.createPlayers
                        (VideoLibrary.initialize VideoLibrary.defaults)) [])
                = 0) by reflexivity.
    rewrite H in E.
    + discriminate E.
    + intros before after player document Hs.
      destruct before; discriminate Hs.
  - intro H.
    specialize (H {| VideoLibrary.ids := "a" |}
                  [VideoLibrary.PlayerReady 0 [loading 1];
                   VideoLibrary.Error 1]).
    assert (E : VideoLibrary.ready_count
                  (VideoLibrary.run
                     (VideoLibrary.createPlayers
                        (VideoLibrary.initialize
                           {| VideoLibrary.ids := "a" |}))
                     [VideoLibrary.PlayerReady 0 [loading 1];
                      VideoLibrary.Error 1])
                = 0) by reflexivity.
    rewrite H in E.
    + discriminate E.
    + discriminate.
    + reflexivity.
    + intros before after player document Hs _ i Hi.
      destruct before as [|s1 [|s2 [|s3 before]]]; try discriminate Hs.
      injection Hs as <- <- <-. destruct Hi as [<-|[]].
      right. left. reflexivity.
Qed.

Lemma image_error_blocks_ready_event_witness :
  VideoLibrary.ready_count
    (VideoLibrary.run (started ["a"; "b"]%string)
       ([VideoLibrary.PlayerReady 0 []]
          ++ VideoLibrary.PlayerReady 1 [loading 1; loading 2; shown 3]
          :: [VideoLibrary.Load 1; VideoLibrary.Error 1;
              VideoLibrary.Error 3; VideoLibrary.Load 2])) = 1 /\
  VideoLibrary.ready_count
    (VideoLibrary.run (started ["a"; "b"]%string)
       ([VideoLibrary.PlayerReady 0 []]
          ++ VideoLibrary.PlayerReady 1 [loading 1; loading 2; shown 3]
          :: [VideoLibrary.Load 2] ++ VideoLibrary.Error 1
          :: [VideoLibrary.Load 1])) = 0.
Proof.
  pose proof (@image_error_blocks_ready_event ["a"; "b"]%string
                [VideoLibrary.PlayerReady 0 []] 1
                [loading 1; loading 2; shown 3]
                eq_refl) as (H1 & _ & H2).
  split.
  - apply H1. intros i [<-|[<-|[]]].
    + exists [], [VideoLibrary.Error 1; VideoLibrary.Error 3;
                  VideoLibrary.Load 2].
      split; [reflexivity | intros []].
    + exists [VideoLibrary.Load 1; VideoLibrary.Error 1;
              VideoLibrary.Error 3], [].
      split; [reflexivity|].
      intros [H|[H|[H|[]]]]; discriminate H.
  - apply H2.
    + left. reflexivity.
    + intros [H|[]]. discriminate H.
Defined.

Lemma ready_event_fires_once_after_players_and_images_witness :
  VideoLibrary.ready_count
    (VideoLibrary.run
       (VideoLibrary.createPlayers
          (VideoLibrary.initialize {| VideoLibrary.ids := "a, b" |}))
       (([VideoLibrary.PlayerReady 0 []; VideoLibrary.Load 7]
           ++ VideoLibrary.PlayerReady 1 [loading 1; shown 2]
           :: [VideoLibrary.Load 1; VideoLibrary.Error 1])
          ++ [VideoLibrary.PlayerReady 0 []; VideoLibrary.Error 1])) = 1.
Proof.
  refine (proj1 (proj2 (proj2 (proj2
    (ready_event_fires_once_after_players_and_images
       {| VideoLibrary.ids := "a, b" |}))))
    [VideoLibrary.PlayerReady 0 []; VideoLibrary.Load 7]
    1 [loading 1; shown 2]
    [VideoLibrary.Load 1; VideoLibrary.Error 1]
    [VideoLibrary.PlayerReady 0 []; VideoLibrary.Error 1] eq_refl _).
  intros i [<-|[]].
  exists [], [VideoLibrary.Error 1]. split; [reflexivity | intros []].
Defined.

(** * Further properties *)

(** ** The sorted list as a whole *)

Section SortedList.

Import ArticleNavigation.

Variable Util : string -> option callback.
Variable this : Plugin.

Lemma strict_eq_eq (a b : Js.value) : Js.strict_eq a b = true <-> a = b.
Proof.
  destruct a, b; simpl; split; intro H; try discriminate; try reflexivity.
  - apply Bool.eqb_prop in H. now subst.
  - inversion H. apply Bool.eqb_reflx.
  - apply Z.eqb_eq in H. now subst.
  - inversion H. apply Z.eqb_refl.
  - apply String.eqb_eq in H. now subst.
  - inversion H. apply String.eqb_refl.
Qed.

Lemma filter_complement_perm (p : entity -> bool) (l : list entity) :
  Permutation (List.filter (fun x => negb (p x)) l ++ List.filter p l) l.
Proof.
  induction l as [|x l IH]; simpl; [constructor|].
  destruct (p x); simpl.
  - apply Permutation_sym, Permutation_cons_app, Permutation_sym, IH.
  - now constructor.
Qed.

Lemma filter_perm (p : entity -> bool) (l l' : list entity) :
  Permutation l l' -> Permutation (List.filter p l) (List.filter p l').
Proof.
  induction 1 as [|x l l' _ IH|x y l|l l' l'' _ IH1 _ IH2]; simpl.
  - constructor.
  - destruct (p x); [now constructor | exact IH].
  - destruct (p x), (p y); try apply Permutation_refl. apply perm_swap.
  - eapply perm_trans; eassumption.
Qed.

Lemma take_keeps (s : entity) (pool acc : list entity) :
  Permutation (fst (take s (pool, acc)) ++ snd (take s (pool, acc)))
    (pool ++ acc).
Proof.
  unfold take. cbn [fst snd].
  eapply perm_trans;
    [apply Permutation_app_head, Permutation_app_comm|].
  rewrite app_assoc. apply Permutation_app_tail.
  eapply perm_trans;
    [apply Permutation_app_head, Permutation_sym, Permutation_rev|].
  apply (filter_complement_perm (belongs s) pool).
Qed.

Lemma visit_sections_keeps (c : entity) (ss pool acc : list entity) :
  let st := visit_sections c ss (pool, acc) in
  Permutation (fst st ++ snd st) (pool ++ acc).
Proof.
  revert pool acc. induction ss as [|s ss IH]; intros pool acc; simpl.
  - apply Permutation_refl.
  - destruct (in_category c s); [|apply IH].
    eapply perm_trans; [|apply (take_keeps s pool acc)].
    unfold take. cbn [fst snd]. apply IH.
Qed.

Lemma visit_categories_keeps (cs ss pool acc : list entity) :
  let st := snd (visit_categories Util this cs (ss, (pool, acc))) in
  Permutation (fst st ++ snd st) (pool ++ acc).
Proof.
  revert ss pool acc. induction cs as [|c cs IH]; intros ss pool acc; simpl.
  - apply Permutation_refl.
  - cbn [fst snd].
    set (ss' := sorted_by (chosen_comparator Util this Sections) ss).
    pose proof (visit_sections_keeps c ss' pool acc) as H. cbv zeta in H.
    destruct (visit_sections c ss' (pool, acc)) as [pool' acc'].
    eapply perm_trans; [apply IH | exact H].
Qed.

(** X1. The array [_sortArticles] returns holds the filtered articles
    that a filtered section of a filtered category claims, each as
    often as the articles array holds it: nothing is lost, doubled or
    made up on the way. *)
Theorem sorted_articles_are_the_claimed_ones (cats secs arts : list entity) :
  Permutation (sortArticles_result Util this cats secs arts)
    (List.filter
       (taken (filtered Util this Categories cats)
              (filtered Util this Sections secs))
       (filtered Util this Articles arts)).
Proof.
  destruct (sortArticles_spec Util this cats secs arts) as (Hres & _).
  cbv zeta in Hres. rewrite Hres. clear Hres.
  set (cs := sorted_by (chosen_comparator Util this Categories)
               (rev (filtered Util this Categories cats))).
  set (ss := rev (filtered Util this Sections secs)).
  set (A0 := sorted_by (chosen_comparator Util this Articles)
               (filtered Util this Articles arts)).
  assert (Hacc : Permutation
                   (snd (snd (loops Util this cats secs arts)))
                   (List.filter (taken cs ss) A0)).
  { unfold loops. fold cs ss A0.
    pose proof (visit_categories_keeps cs ss A0 []) as Hk. cbv zeta in Hk.
    rewrite visit_categories_pool, app_nil_r in Hk.
    eapply Permutation_app_inv_l.
    eapply perm_trans; [exact Hk|].
    apply Permutation_sym, (filter_complement_perm (taken cs ss) A0). }
  assert (Hgoal : Permutation (List.filter (taken cs ss) A0)
                    (List.filter
                       (taken (filtered Util this Categories cats)
                              (filtered Util this Sections secs))
                       (filtered Util this Articles arts))).
  { eapply perm_trans; [apply filter_perm, sorted_by_perm|].
    erewrite filter_ext; [apply Permutation_refl|].
    intro a. apply taken_same_elements; intro x; unfold cs, ss.
    - rewrite sorted_by_In. symmetry. apply in_rev.
    - symmetry. apply in_rev. }
  destruct (String.eqb _ _).
  - eapply perm_trans; eassumption.
  - eapply perm_trans; [apply Permutation_sym, Permutation_rev|].
    eapply perm_trans; eassumption.
Qed.

Lemma chosen_with_order (order : string) (g : group) :
  chosen_filter Util (with_order this order) g = chosen_filter Util this g /\
  chosen_comparator Util (with_order this order) g =
    chosen_comparator Util this g.
Proof. split; reflexivity. Qed.

Lemma loops_with_order (order : string) (cats secs arts : list entity) :
  loops Util (with_order this order) cats secs arts =
  loops Util this cats secs arts.
Proof. reflexivity. Qed.

(** X2. With [sortOrder] set to anything but "desc", [_sortArticles]
    returns the reverse of what it returns with "desc", all other
    options being the same. *)
Theorem other_orders_reverse_desc (order : string)
    (cats secs arts : list entity) :
  String.eqb order "desc" = false ->
  sortArticles_result Util (with_order this order) cats secs arts =
  rev (sortArticles_result Util (with_order this "desc") cats secs arts).
Proof.
  intro Ho.
  destruct (sortArticles_spec Util (with_order this order) cats secs arts)
    as (H1 & _).
  destruct (sortArticles_spec Util (with_order this "desc") cats secs arts)
    as (H2 & _).
  cbv zeta in H1, H2. rewrite H1, H2, !loops_with_order.
  cbn [options with_order sortOrder]. rewrite Ho. reflexivity.
Qed.

End SortedList.

Lemma other_orders_reverse_desc_witness :
  ArticleNavigation.sortArticles_result ArticleNavigation.Util_spec
    (with_order (ArticleNavigation.plugin ArticleNavigation.defaults) "asc")
    [Example.category1] [Example.section10; Example.section11]
    [Example.article100; Example.article101] =
  rev (ArticleNavigation.sortArticles_result ArticleNavigation.Util_spec
         (with_order (ArticleNavigation.plugin ArticleNavigation.defaults)
            "desc")
         [Example.category1] [Example.section10; Example.section11]
         [Example.article100; Example.article101]).
Proof. apply other_orders_reverse_desc. reflexivity. Defined.

(** ** Previous and next are inverse *)

Section Neighbours.

Import ArticleNavigation.

Lemma first_match_unique (this : Plugin) (p1 p2 q1 q2 : list entity)
    (x1 x2 : entity) :
  p1 ++ x1 :: q1 = p2 ++ x2 :: q2 ->
  forallb (differs this) p1 = true -> differs this x1 = false ->
  forallb (differs this) p2 = true -> differs this x2 = false ->
  p1 = p2 /\ x1 = x2 /\ q1 = q2.
Proof.
  revert p2. induction p1 as [|y p1 IH]; intros p2 He H1 Hx1 H2 Hx2.
  - destruct p2 as [|z p2]; simpl in He.
    + injection He as -> ->. auto.
    + injection He as -> _. simpl in H2. rewrite Hx1 in H2. discriminate.
  - destruct p2 as [|z p2]; simpl in He.
    + injection He as -> _. simpl in H1. rewrite Hx2 in H1. discriminate.
    + injection He as -> He. simpl in H1, H2.
      apply andb_prop in H1. apply andb_prop in H2.
      destruct (IH p2 He) as (-> & -> & ->); tauto.
Qed.

Lemma differs_with_article (this : Plugin) (b y : entity) :
  differs (with_article this (id b)) y = negb (Js.strict_eq (id y) (id b)).
Proof. reflexivity. Qed.

Lemma others_differ (this : Plugin) (l1 l2 : list entity) (b : entity) :
  NoDup (map id (l1 ++ b :: l2)) ->
  forallb (differs (with_article this (id b))) l1 = true.
Proof.
  intro Hn. apply forallb_forall. intros y Hy.
  rewrite differs_with_article. apply negb_true_iff.
  destruct (Js.strict_eq (id y) (id b)) eqn:E; [|reflexivity].
  apply strict_eq_eq in E. exfalso.
  rewrite map_app in Hn. simpl in Hn. apply NoDup_remove_2 in Hn.
  apply Hn. apply in_or_app. left. rewrite <- E. now apply in_map.
Qed.

Lemma located_there (this : Plugin) (l1 l2 : list entity) (b : entity) :
  NoDup (map id (l1 ++ b :: l2)) ->
  locate (with_article this (id b)) (l1 ++ b :: l2) =
  {| currentArticle := Object b;
     previousArticle := last_of l1;
     nextArticle := first_of l2 |}.
Proof.
  intro Hn.
  assert (Hb : differs (with_article this (id b)) b = false).
  { rewrite differs_with_article.
    replace (Js.strict_eq (id b) (id b)) with true; [reflexivity|].
    symmetry. now apply strict_eq_eq. }
  pose proof (locate_located (with_article this (id b)) (l1 ++ b :: l2)) as H.
  remember (locate (with_article this (id b)) (l1 ++ b :: l2)) as d eqn:Ed.
  clear Ed. destruct H as [pre post x He Hpre Hx | Hall].
  - destruct (@first_match_unique (with_article this (id b))
                l1 pre l2 post b x He (others_differ this _ _ _ Hn)
                Hb Hpre Hx) as (-> & -> & ->).
    reflexivity.
  - rewrite forallb_forall in Hall.
    rewrite Hall in Hb; [discriminate|].
    apply in_or_app. right. now left.
Qed.

(** X3. In a sorted array whose ids are pairwise different: when
    [render] shows [b] as the next article of the current article [a],
    then with [b] as the configured article it shows [b] as current and
    [a] as previous; and likewise with previous and next exchanged. *)
Theorem next_and_previous_are_inverse (this : Plugin)
    (articles : list entity) (a b : entity) :
  NoDup (map id articles) ->
  currentArticle (locate this articles) = Object a ->
  let there := locate (with_article this (id b)) articles in
  (nextArticle (locate this articles) = Object b ->
   currentArticle there = Object b /\ previousArticle there = Object a) /\
  (previousArticle (locate this articles) = Object b ->
   currentArticle there = Object b /\ nextArticle there = Object a).
Proof.
  intros Hn Hc. cbv zeta.
  pose proof (locate_located this articles) as H.
  remember (locate this articles) as d eqn:Ed. clear Ed.
  destruct H as [pre post x He Hpre Hx | Hall]; simpl in Hc; [|discriminate].
  injection Hc as ->. cbn [nextArticle previousArticle]. split.
  - intro Hnext. destruct post as [|b' post]; [discriminate|].
    simpl in Hnext. injection Hnext as ->.
    assert (E : articles = (pre ++ [a]) ++ b :: post)
      by (rewrite He, <- app_assoc; reflexivity).
    rewrite E in Hn |- *. rewrite located_there by assumption. simpl.
    split; [reflexivity|]. unfold last_of. now rewrite rev_app_distr.
  - intro Hprev. unfold last_of in Hprev.
    destruct (rev pre) as [|b' rpre] eqn:Er; [discriminate|].
    injection Hprev as ->.
    assert (Ep : pre = rev rpre ++ [b])
      by (rewrite <- (rev_involutive pre), Er; reflexivity).
    assert (E : articles = rev rpre ++ b :: a :: post)
      by (rewrite He, Ep, <- app_assoc; reflexivity).
    rewrite E in Hn |- *. rewrite located_there by assumption. simpl.
    split; reflexivity.
Qed.

End Neighbours.

Lemma next_and_previous_are_inverse_witness :
  let this := ArticleNavigation.plugin (Example.at_article 101) in
  let articles := [Example.article101; Example.article100] in
  let there := ArticleNavigation.locate
                 (with_article this (id Example.article100)) articles in
  (ArticleNavigation.nextArticle (ArticleNavigation.locate this articles)
   = ArticleNavigation.Object Example.article100 ->
   ArticleNavigation.currentArticle there
   = ArticleNavigation.Object Example.article100 /\
   ArticleNavigation.previousArticle there
   = ArticleNavigation.Object Example.article101) /\
  (ArticleNavigation.previousArticle (ArticleNavigation.locate this articles)
   = ArticleNavigation.Object Example.article100 ->
   ArticleNavigation.currentArticle there
   = ArticleNavigation.Object Example.article100 /\
   ArticleNavigation.nextArticle there
   = ArticleNavigation.Object Example.article101).
Proof.
  apply (@next_and_previous_are_inverse
           (ArticleNavigation.plugin (Example.at_article 101))
           [Example.article101; Example.article100]
           Example.article101 Example.article100).
  - repeat constructor; simpl; intuition discriminate.
  - reflexivity.
Defined.

(** ** Splitting and joining *)

Section Strings.

Import VideoLibrary.

Local Open Scope string_scope.

Lemma append_nil_r (s : string) : s ++ "" = s.
Proof. induction s as [|c s IH]; simpl; congruence. Qed.

Lemma append_assoc (a b c : string) : (a ++ b) ++ c = a ++ b ++ c.
Proof. induction a as [|x a IH]; simpl; congruence. Qed.

Lemma occurrences_append (c : ascii) (s t : string) :
  occurrences c (s ++ t) = occurrences c s + occurrences c t.
Proof. induction s as [|x s IH]; simpl; [reflexivity|]. rewrite IH. lia. Qed.

Lemma split_from_piece (separator : ascii) (s current t : string) :
  occurrences separator s = 0 ->
  split_from separator current (s ++ String separator t) =
  (current ++ s) :: split_from separator "" t.
Proof.
  revert current. induction s as [|c s IH]; intros current H; simpl.
  - rewrite Ascii.eqb_refl, append_nil_r. reflexivity.
  - simpl in H. destruct (Ascii.eqb c separator); [discriminate|].
    rewrite IH by assumption. rewrite append_assoc. reflexivity.
Qed.

Lemma split_from_last (separator : ascii) (s current : string) :
  occurrences separator s = 0 ->
  split_from separator current s = [current ++ s].
Proof.
  revert current. induction s as [|c s IH]; intros current H; simpl.
  - now rewrite append_nil_r.
  - simpl in H. destruct (Ascii.eqb c separator); [discriminate|].
    rewrite IH by assumption. rewrite append_assoc. reflexivity.
Qed.

Lemma join_cons (separator x y : string) (l : list string) :
  join separator (x :: y :: l) = x ++ separator ++ join separator (y :: l).
Proof. reflexivity. Qed.

(** Splitting what was joined gives the pieces back. *)
Lemma split_join (separator : ascii) (l : list string) :
  l <> [] ->
  Forall (fun x => occurrences separator x = 0) l ->
  split separator (join (String separator "") l) = l.
Proof.
  intros Hl Hf. unfold split. induction l as [|x l IH]; [congruence|].
  inversion Hf as [|? ? Hx Hf']; subst.
  destruct l as [|y l].
  - simpl. now rewrite split_from_last.
  - rewrite join_cons. simpl append at 2.
    rewrite split_from_piece by assumption. simpl append.
    f_equal. apply IH; [discriminate | assumption].
Qed.

Lemma occurrences_join (c : ascii) (separator : string) (l : list string) :
  occurrences c separator = 0 ->
  Forall (fun x => occurrences c x = 0) l ->
  occurrences c (join separator l) = 0.
Proof.
  intros Hs Hf. induction l as [|x l IH]; [reflexivity|].
  inversion Hf as [|? ? Hx Hf']; subst.
  destruct l as [|y l]; [exact Hx|].
  rewrite join_cons, !occurrences_append, Hx, Hs, IH by assumption.
  reflexivity.
Qed.

Lemma list_of_append (a b : string) :
  list_ascii_of_string (a ++ b) =
  (list_ascii_of_string a ++ list_ascii_of_string b)%list.
Proof. induction a as [|x a IH]; simpl; congruence. Qed.

Lemma string_of_app (l1 l2 : list ascii) :
  string_of_list_ascii (l1 ++ l2) =
  string_of_list_ascii l1 ++ string_of_list_ascii l2.
Proof. induction l1 as [|x l1 IH]; simpl; congruence. Qed.

Lemma reverse_append (a b : string) :
  reverse (a ++ b) = reverse b ++ reverse a.
Proof.
  unfold reverse. now rewrite list_of_append, rev_app_distr, string_of_app.
Qed.

Lemma reverse_involutive (s : string) : reverse (reverse s) = s.
Proof.
  unfold reverse.
  now rewrite list_ascii_of_string_of_list_ascii, rev_involutive,
    string_of_list_ascii_of_string.
Qed.

Lemma blank_reverse (w : string) : blank w = true -> blank (reverse w) = true.
Proof.
  unfold blank, reverse. rewrite list_ascii_of_string_of_list_ascii.
  rewrite !forallb_forall. intros H c Hc. apply H. now apply in_rev.
Qed.

Lemma trimStart_blank (w s : string) :
  blank w = true -> trimStart (w ++ s) = trimStart s.
Proof.
  unfold blank. induction w as [|c w IH]; simpl; [reflexivity|].
  intro H. apply andb_prop in H. destruct H as [Hc Hw].
  rewrite Hc. now apply IH.
Qed.

Lemma trimStart_keeps (s t : string) :
  trimStart s = s -> s <> "" -> trimStart (s ++ t) = s ++ t.
Proof.
  destruct s as [|c s]; [congruence|]. simpl.
  destruct (is_white_space c) eqn:E; [|reflexivity].
  intros H _. exfalso.
  assert (Hlen : String.length (trimStart s) <= String.length s).
  { clear. induction s as [|x s IH]; simpl; [lia|].
    destruct (is_white_space x); simpl; lia. }
  rewrite H in Hlen. simpl in Hlen. lia.
Qed.

Lemma blank_no_comma (w : string) :
  blank w = true -> occurrences "," w = 0.
Proof.
  unfold blank. induction w as [|c w IH]; simpl; [reflexivity|].
  intro H. apply andb_prop in H. destruct H as [Hc Hw].
  rewrite IH by assumption.
  destruct (Ascii.eqb c ",") eqn:E; [|reflexivity].
  apply Ascii.eqb_eq in E. subst c. discriminate Hc.
Qed.

(** [trim] leaves of a piece the id that was written. *)
Lemma trim_written (p : Piece) :
  blank (lead p) = true -> blank (trail p) = true -> tight (name_of p) ->
  trim (written p) = name_of p.
Proof.
  intros Hl Ht [Hs He]. unfold trim, written.
  rewrite trimStart_blank by assumption.
  destruct (name_of p) as [|c s] eqn:En.
  - simpl append.
    assert (Hb : trimStart (trail p) = "").
    { rewrite <- (append_nil_r (trail p)), trimStart_blank by assumption.
      reflexivity. }
    rewrite Hb. reflexivity.
  - rewrite trimStart_keeps by (assumption || discriminate).
    rewrite reverse_append, trimStart_blank by now apply blank_reverse.
    rewrite He. apply reverse_involutive.
Qed.

(** X4. An [ids] option written as ids separated by commas, each with
    any white space around it, is read by [initialize] as those ids, in
    that order, when no id holds a comma or starts or ends with white
    space. *)
Theorem ids_are_read_as_written (pieces : list Piece) :
  pieces <> [] ->
  Forall (fun p => blank (lead p) = true /\ blank (trail p) = true /\
                   tight (name_of p) /\ occurrences "," (name_of p) = 0)
         pieces ->
  video_ids (initialize {| ids := join "," (map written pieces) |}) =
  map name_of pieces.
Proof.
  intros Hne Hf. unfold initialize, initialized. cbn [video_ids ids].
  rewrite split_join.
  - rewrite map_map. apply map_ext_in. intros p Hp.
    rewrite Forall_forall in Hf. destruct (Hf p Hp) as (H1 & H2 & H3 & _).
    now apply trim_written.
  - destruct pieces; [congruence | discriminate].
  - rewrite Forall_forall in *. intros x Hx.
    apply in_map_iff in Hx. destruct Hx as (p & <- & Hp).
    destruct (Hf p Hp) as (H1 & H2 & _ & H4).
    unfold written. rewrite !occurrences_append, H4.
    now rewrite !blank_no_comma.
Qed.

End Strings.

Lemma ids_are_read_as_written_witness :
  VideoLibrary.video_ids
    (VideoLibrary.initialize
       {| VideoLibrary.ids :=
            join ","
              (map written
                 [{| lead := ""; name_of := "dQw4"; trail := " " |};
                  {| lead := "  "; name_of := "x y"; trail := "" |}]) |})
  = map name_of
      [{| lead := ""; name_of := "dQw4"; trail := " " |};
       {| lead := "  "; name_of := "x y"; trail := "" |}].
Proof.
  apply ids_are_read_as_written; [discriminate|].
  repeat constructor.
Defined.

(** ** The printed duration *)

Section DurationFacts.

Import Duration.

Local Open Scope Z_scope.

Lemma digits_have_no_colon (d : Decimal.uint) :
  occurrences ":" (NilEmpty.string_of_uint d) = 0%nat.
Proof. induction d; simpl; assumption || reflexivity. Qed.

Lemma to_string_has_no_colon (v : Z) :
  0 <= v -> occurrences ":" (to_string v) = 0%nat.
Proof.
  intro H. unfold to_string. destruct v as [|p|p]; [reflexivity| |lia].
  simpl. unfold NilZero.string_of_uint.
  destruct (Pos.to_uint p); try reflexivity; apply digits_have_no_colon.
Qed.

Lemma field_has_no_colon (v : Z) :
  0 <= v -> occurrences ":" (field v) = 0%nat.
Proof.
  intro H. unfold field. destruct (v <? 10).
  - simpl. now apply to_string_has_no_colon.
  - now apply to_string_has_no_colon.
Qed.

Lemma text_padded (v : Z) : text (padded v) = field v.
Proof. unfold padded, field. destruct (v <? 10); reflexivity. Qed.

Lemma below_ten (v : Z) :
  0 <= v < 10 ->
  v = 0 \/ v = 1 \/ v = 2 \/ v = 3 \/ v = 4 \/
  v = 5 \/ v = 6 \/ v = 7 \/ v = 8 \/ v = 9.
Proof. lia. Qed.

(** Only the number zero is padded to "00". *)
Lemma padded_is_zero (v : Z) :
  0 <= v -> Js.strict_eq (padded v) (Js.Str "00") = (v =? 0).
Proof.
  intro H. unfold padded. destruct (v <? 10) eqn:E.
  - apply Z.ltb_lt in E.
    destruct (below_ten (conj H E)) as [->|[->|[->|[->|[->|[->|[->|[->|[->| ->]]]]]]]]];
      reflexivity.
  - apply Z.ltb_ge in E. simpl. symmetry. apply Z.eqb_neq. lia.
Qed.

Lemma read_field (v : Z) : 0 <= v -> read (field v) = Some v.
Proof.
  intro H. unfold field. destruct (v <? 10) eqn:E.
  - apply Z.ltb_lt in E.
    destruct (below_ten (conj H E)) as [->|[->|[->|[->|[->|[->|[->|[->|[->| ->]]]]]]]]];
      reflexivity.
  - apply Z.ltb_ge in E. unfold read, to_string.
    rewrite NilZero.isi.
    + simpl. now rewrite DecimalZ.of_to.
    + destruct v as [|p|p]; try lia. simpl. intros [= Hp].
      now apply (DecimalPos.Unsigned.to_uint_nonnil p).
    + destruct v as [|p|p]; try lia. discriminate.
Qed.

Lemma field_of_two_digits (v : Z) :
  0 <= v < 60 -> String.length (field v) = 2%nat.
Proof.
  intro H.
  assert (Hall : forallb
                   (fun n => Nat.eqb (String.length (field (Z.of_nat n))) 2)
                   (seq 0 60) = true) by (vm_compute; reflexivity).
  rewrite forallb_forall in Hall.
  specialize (Hall (Z.to_nat v)). rewrite Z2Nat.id in Hall by lia.
  apply Nat.eqb_eq, Hall, in_seq. lia.
Qed.

(** What [getDuration] joins. *)
Lemma getDuration_fields (d : Z) :
  0 <= d ->
  getDuration d =
  join ":" ((if d <? 3600 then [] else [field (d / 3600)])
              ++ [field ((d / 60) mod 60); field (d mod 60)]).
Proof.
  intro H. unfold getDuration.
  rewrite !Z.rem_mod_nonneg by (try apply Z.div_pos; lia).
  cbn [map filter_from].
  assert (Hh : 0 <= d / 3600) by (apply Z.div_pos; lia).
  rewrite padded_is_zero by assumption.
  rewrite !orb_true_r.
  destruct (d <? 3600) eqn:E.
  - apply Z.ltb_lt in E. rewrite Z.div_small by lia. simpl negb.
    cbn [orb Nat.ltb Nat.leb map app]. now rewrite !text_padded.
  - apply Z.ltb_ge in E.
    assert (Hq : 1 <= d / 3600)
      by (apply Z.div_le_lower_bound; lia).
    replace (d / 3600 =? 0) with false by (symmetry; apply Z.eqb_neq; lia).
    cbn [negb orb map app]. now rewrite !text_padded.
Qed.

Lemma hours_minutes_seconds (d : Z) :
  d = 3600 * (d / 3600) + 60 * ((d / 60) mod 60) + d mod 60.
Proof.
  pose proof (Z.div_mod d 60) as A.
  pose proof (Z.div_mod (d / 60) 60) as B.
  pose proof (Z.div_div d 60 60) as C.
  change (60 * 60) with 3600 in C. lia.
Qed.

Lemma getDuration_split (d : Z) :
  0 <= d ->
  VideoLibrary.split ":" (getDuration d) =
    ((if d <? 3600 then [] else [field (d / 3600)])
       ++ [field ((d / 60) mod 60); field (d mod 60)])%list.
Proof.
  intro H.
  assert (Hm : 0 <= (d / 60) mod 60 < 60) by (apply Z.mod_pos_bound; lia).
  assert (Hs : 0 <= d mod 60 < 60) by (apply Z.mod_pos_bound; lia).
  assert (Hh : 0 <= d / 3600) by (apply Z.div_pos; lia).
  rewrite getDuration_fields by assumption.
  apply split_join.
  - destruct (d <? 3600); discriminate.
  - destruct (d <? 3600); repeat constructor;
      apply field_has_no_colon; lia.
Qed.

(** X5. For a duration of [d] whole seconds, from 0 up to 2^53
    excluded, [getDuration] prints minutes and seconds as two fields of
    two digits each, separated by a colon, and before them the hours,
    padded to two digits, when and only when there is an hour at
    least. *)
Theorem duration_is_printed_in_fields (d : Z) :
  whole_seconds d ->
  VideoLibrary.split ":" (getDuration d) =
    ((if d <? 3600 then [] else [field (d / 3600)])
       ++ [field ((d / 60) mod 60); field (d mod 60)])%list /\
  String.length (field ((d / 60) mod 60)) = 2%nat /\
  String.length (field (d mod 60)) = 2%nat.
Proof.
  intros [H _].
  assert (Hm : 0 <= (d / 60) mod 60 < 60) by (apply Z.mod_pos_bound; lia).
  assert (Hs : 0 <= d mod 60 < 60) by (apply Z.mod_pos_bound; lia).
  split; [|split; now apply field_of_two_digits].
  now apply getDuration_split.
Qed.

(** X6. Durations of different whole seconds, from 0 up to 2^53
    excluded, are printed differently. *)
Theorem printed_durations_differ (d1 d2 : Z) :
  whole_seconds d1 -> whole_seconds d2 ->
  getDuration d1 = getDuration d2 -> d1 = d2.
Proof.
  intros [H1 _] [H2 _] He.
  pose proof (getDuration_split H1) as F1.
  pose proof (getDuration_split H2) as F2.
  rewrite He, F2 in F1. clear He F2.
  assert (Hr : forall a b, 0 <= a -> 0 <= b -> field a = field b -> a = b).
  { intros a b Ha Hb E. apply (f_equal read) in E.
    rewrite !read_field in E by assumption. congruence. }
  assert (Hm1 : 0 <= (d1 / 60) mod 60 < 60) by (apply Z.mod_pos_bound; lia).
  assert (Hm2 : 0 <= (d2 / 60) mod 60 < 60) by (apply Z.mod_pos_bound; lia).
  assert (Hs1 : 0 <= d1 mod 60 < 60) by (apply Z.mod_pos_bound; lia).
  assert (Hs2 : 0 <= d2 mod 60 < 60) by (apply Z.mod_pos_bound; lia).
  assert (Hh1 : 0 <= d1 / 3600) by (apply Z.div_pos; lia).
  assert (Hh2 : 0 <= d2 / 3600) by (apply Z.div_pos; lia).
  pose proof (hours_minutes_seconds d1) as D1.
  pose proof (hours_minutes_seconds d2) as D2.
  destruct (d1 <? 3600) eqn:E1, (d2 <? 3600) eqn:E2; simpl in F1;
    try discriminate F1.
  - injection F1 as Fm Fs.
    apply Hr in Fm; [|lia|lia]. apply Hr in Fs; [|lia|lia].
    apply Z.ltb_lt in E1, E2.
    rewrite (Z.div_small d1 3600) in D1 by lia.
    rewrite (Z.div_small d2 3600) in D2 by lia. lia.
  - injection F1 as Fh Fm Fs.
    apply Hr in Fh; [|lia|lia]. apply Hr in Fm; [|lia|lia].
    apply Hr in Fs; [|lia|lia]. lia.
Qed.

End DurationFacts.

Lemma duration_is_printed_in_fields_witness :
  Duration.whole_seconds 7325 /\
  VideoLibrary.split ":" (Duration.getDuration 7325) =
    ["02"; "02"; "05"]%string.
Proof.
  assert (H : Duration.whole_seconds 7325)
    by (unfold Duration.whole_seconds; lia).
  split; [exact H|].
  exact (proj1 (@duration_is_printed_in_fields 7325 H)).
Defined.

Lemma printed_durations_differ_witness :
  Duration.whole_seconds 59 /\
  Duration.getDuration 59 = Duration.getDuration 59 /\
  59%Z = 59%Z.
Proof.
  assert (H : Duration.whole_seconds 59)
    by (unfold Duration.whole_seconds; lia).
  split; [exact H|]. split; [reflexivity|].
  exact (@printed_durations_differ 59 59 H H eq_refl).
Defined.

(** ** The articles request *)

Section RequestFacts.

Import VideoLibrary.

Local Open Scope string_scope.

Lemma request_url (locale : string) (labels properties : list string) :
  fst (Request.getArticles locale labels properties) =
  ("/api/v2/help_center/" ++ locale ++ "/articles.json")
    ++ String "?"
         ("include=categories,sections"
            ++ match labels with
               | [] => ""
               | _ => String "?" ("label_names=" ++ join "," labels)
               end).
Proof.
  unfold Request.getArticles.
  destruct labels as [|l labels]; cbn [fst app join String.concat].
  - rewrite !append_assoc. reflexivity.
  - rewrite !append_assoc. reflexivity.
Qed.

(** X7. In the URL [getArticles] requests, the label filter follows a
    second question mark: cut at the question marks, the URL is the
    path of the locale's articles, then [include=categories,sections],
    then, when there are labels and only then, [label_names=] with the
    labels joined by commas. *)
Theorem label_filter_follows_a_second_question_mark
    (locale : string) (labels properties : list string) :
  occurrences "?" locale = 0 ->
  Forall (fun l => occurrences "?" l = 0) labels ->
  split "?" (fst (Request.getArticles locale labels properties)) =
    ([("/api/v2/help_center/" ++ locale ++ "/articles.json")%string;
      "include=categories,sections"]
       ++ match labels with
          | [] => []
          | _ => [("label_names=" ++ join "," labels)%string]
          end)%list.
Proof.
  intros Hl Hf. rewrite request_url. unfold split.
  rewrite split_from_piece
    by (rewrite !occurrences_append, Hl; reflexivity).
  destruct labels as [|l labels].
  - reflexivity.
  - rewrite split_from_piece by reflexivity.
    rewrite split_from_last; [reflexivity|].
    rewrite occurrences_append, occurrences_join by (assumption || reflexivity).
    reflexivity.
Qed.

End RequestFacts.

Lemma label_filter_follows_a_second_question_mark_witness :
  occurrences "?" "en-us" = 0 /\
  Forall (fun l => occurrences "?" l = 0)
    ["faq"; "billing"]%string /\
  VideoLibrary.split "?"
    (fst (Request.getArticles "en-us" ["faq"; "billing"]%string [])) =
    ["/api/v2/help_center/en-us/articles.json";
     "include=categories,sections";
     "label_names=faq,billing"]%string.
Proof.
  split; [reflexivity|]. split; [repeat constructor|].
  apply (@label_filter_follows_a_second_question_mark
           "en-us" ["faq"; "billing"]%string []);
    [reflexivity | repeat constructor].
Defined.

(** ** The widget stays hidden until it is ready *)

Section Hidden.

Import VideoLibrary.

Lemma hidden_fold (A : Type) (l : list A) (w : VideoLibrary) :
  hidden (fold_left (fun w _ => onPlayersReady w) l w) =
  hidden w && (List.length l =? 0).
Proof.
  revert w. induction l as [|b l IH]; intro w; simpl.
  - now rewrite andb_true_r.
  - rewrite IH. simpl. now rewrite andb_false_r.
Qed.

Lemma hidden_step (w : VideoLibrary) (s : Signal) :
  hidden w = (ready_count w =? 0) ->
  hidden (step w s) = (ready_count (step w s) =? 0).
Proof.
  intro H. unfold step.
  rewrite ready_count_reactions, ready_count_task.
  unfold reactions. rewrite hidden_fold. cbn [hidden].
  replace (hidden (task w s)) with (hidden w) by (destruct s; reflexivity).
  rewrite H.
  destruct (ready_count w), (List.length (List.filter due (barriers (task w s))));
    reflexivity.
Qed.

Lemma hidden_run (signals : list Signal) (w : VideoLibrary) :
  hidden w = (ready_count w =? 0) ->
  hidden (run w signals) = (ready_count (run w signals) =? 0).
Proof.
  revert w. induction signals as [|s l IH]; intros w H; [exact H|].
  change (run w (s :: l)) with (run (step w s) l).
  apply IH, hidden_step, H.
Qed.

(** X8. Whatever signals arrive, the widget has the class [hidden] that
    [initialize] gives it exactly as long as it has not triggered
    [videoLibrary:ready]. *)
Theorem widget_is_hidden_until_ready_event (options : Options)
    (signals : list Signal) :
  hidden (run (initialize options) signals) =
  (ready_count (run (initialize options) signals) =? 0).
Proof. apply hidden_run. reflexivity. Qed.

End Hidden.

(** ** The settings and the page *)

Section PageFacts.

Import Page.

Variable w : Window.

Lemma settled_carousel (this_options options : Options) :
  Js.strict_eq (layout (settled w this_options options)) (Js.Str "carousel")
    = true ->
  Swiper w = true.
Proof.
  unfold settled.
  set (o1 := if negb (known_layout (layout options)) then _ else _).
  destruct (Js.strict_eq (layout o1) (Js.Str "carousel")) eqn:E1;
    destruct (Swiper w) eqn:Es; cbn [andb negb]; try reflexivity.
  - destruct (_ && _); cbn [with_playInline layout with_layout];
      intro H; discriminate H.
  - destruct (_ && _); cbn [with_playInline layout]; rewrite ?E1;
      intro H; discriminate H.
Qed.

Lemma settled_useLoader (this_options options : Options) :
  useLoader (settled w this_options options) = useLoader this_options.
Proof.
  unfold settled.
  repeat match goal with
         | |- context [if ?c then _ else _] => destruct c
         end; reflexivity.
Qed.

Lemma settled_playInline (this_options options : Options) :
  Js.strict_eq (playInline (settled w this_options options)) (Js.Bool false)
    = true ->
  fancybox w = true.
Proof.
  unfold settled.
  set (o2 := if (Js.strict_eq _ _ && negb (Swiper w)) then _ else _).
  destruct (Js.strict_eq (playInline o2) (Js.Bool false)) eqn:E;
    destruct (fancybox w); cbn [andb negb]; try reflexivity.
  - cbn [with_playInline playInline]. intro H; discriminate H.
  - rewrite E. intro H; discriminate H.
Qed.

Lemma players_ready_created (this_options options : Options)
    (n : nat) (this : Widget) :
  Page.options this = Page.options (created w this_options options) ->
  loader this = loader (created w this_options options) ->
  exists this',
    onPlayersReady w n this = Some this' /\
    VideoLibrary.hidden (library this') = false /\
    loader this' <> Some true /\
    swiper this' =
      (if Js.strict_eq (layout (Page.options this)) (Js.Str "carousel")
       then Some n else swiper this) /\
    (Js.strict_eq (layout (Page.options this)) (Js.Str "carousel") = true ->
     Swiper w = true).
Proof.
  intros Ho Hl.
  pose proof (@settled_carousel this_options options) as Hc.
  cbn [created Page.options loader] in Ho, Hl.
  set (o := settled w this_options options) in *.
  clearbody o.
  destruct this as [lib opts ld sw tb]. cbn [Page.options loader] in Ho, Hl.
  subst opts ld.
  unfold onPlayersReady, initializeCarousel, initializeTabs, remove_loader.
  cbn [Page.options loader swiper library].
  destruct (Js.strict_eq (layout o) (Js.Str "carousel")) eqn:Ec.
  - rewrite (Hc eq_refl). cbn [Page.options].
    destruct (Js.strict_eq (layout o) (Js.Str "tabs"));
      cbn [Page.options loader]; destruct (truthy (useLoader o));
      eexists; (split; [reflexivity|]); cbn;
      repeat split; congruence.
  - cbn [Page.options].
    destruct (Js.strict_eq (layout o) (Js.Str "tabs"));
      cbn [Page.options loader]; destruct (truthy (useLoader o));
      eexists; (split; [reflexivity|]); cbn;
      repeat split; congruence.
Qed.

(** X9. For whatever options and window, [onPlayersReady] does not
    throw on a widget that has the options and the loader [initialize]
    left: it creates a carousel only where [Swiper] is a function,
    removes a loader only where one was rendered, and leaves the widget
    shown and no loader in the document. *)
Theorem players_ready_does_not_throw (this_options options : Options)
    (n : nat) (this : Widget) :
  Page.options this = Page.options (created w this_options options) ->
  loader this = loader (created w this_options options) ->
  exists this',
    onPlayersReady w n this = Some this' /\
    VideoLibrary.hidden (library this') = false /\
    loader this' <> Some true /\
    (swiper this' <> swiper this -> Swiper w = true).
Proof.
  intros Ho Hl.
  destruct (players_ready_created this_options options n this Ho Hl)
    as (this' & H1 & H2 & H3 & H4 & H5).
  exists this'. repeat split; try assumption.
  intro Hd. apply H5.
  destruct (Js.strict_eq _ _); [reflexivity | congruence].
Qed.

Lemma initialize_from (os : list (Options * Options)) (p : Page) :
  let p' := fold_left (fun p o => initialize w p (fst o) (snd o)) os p in
  instances p' = instances p + List.length os /\
  widgets p' =
    widgets p ++ map (fun o => created w (fst o) (snd o)) os /\
  onYouTubeIframeAPIReady p' =
    match os with
    | [] => onYouTubeIframeAPIReady p
    | _ => Some (List.length (widgets p) + List.length os - 1)
    end.
Proof.
  revert p. induction os as [|o os IH]; intro p; cbn [fold_left].
  - cbn. rewrite Nat.add_0_r, app_nil_r. repeat split.
  - destruct (IH (initialize w p (fst o) (snd o))) as (H1 & H2 & H3).
    cbv zeta. rewrite H1, H2, H3. cbn [initialize instances widgets
      onYouTubeIframeAPIReady map List.length].
    rewrite <- app_assoc, length_app. cbn [List.length app].
    repeat split; try lia.
    destruct os; cbn [List.length]; f_equal; lia.
Qed.

Lemma initialize_all_fields (os : list (Options * Options)) :
  instances (initialize_all w os) = List.length os /\
  widgets (initialize_all w os) =
    map (fun o => created w (fst o) (snd o)) os /\
  onYouTubeIframeAPIReady (initialize_all w os) =
    match os with
    | [] => None
    | _ => Some (List.length os - 1)
    end.
Proof.
  destruct (initialize_from os empty) as (H1 & H2 & H3).
  unfold initialize_all. cbv zeta in *. rewrite H1, H2, H3.
  repeat split.
Qed.


Lemma nth_error_change (f : Widget -> Widget) (l : list Widget) (k i : nat) :
  nth_error (change k f l) i =
  if i =? k then option_map f (nth_error l i) else nth_error l i.
Proof.
  revert k i. induction l as [|x l IH]; intros k i.
  - destruct k, i; simpl; try reflexivity; now destruct (i =? k).
  - destruct k, i; simpl; try reflexivity. apply IH.
Qed.

Lemma change_change (f : Widget -> Widget) (l : list Widget) (k : nat) :
  (forall x, f (f x) = f x) ->
  change k f (change k f l) = change k f l.
Proof.
  intro Hf. revert k. induction l as [|x l IH]; intro k.
  - now destruct k.
  - destruct k; simpl; [now rewrite Hf | now rewrite IH].
Qed.

Lemma apiReady_again (m : nat) (p : Page) :
  Nat.iter (S m) apiReady p = apiReady p.
Proof.
  induction m as [|m IH]; [reflexivity|].
  change (Nat.iter (S (S m)) apiReady p)
    with (apiReady (Nat.iter (S m) apiReady p)).
  rewrite IH. unfold apiReady at 1 3.
  destruct (onYouTubeIframeAPIReady p) as [k|] eqn:E; cbn; rewrite ?E.
  - unfold apiReady. rewrite E. cbn. f_equal.
    apply change_change. intro x. reflexivity.
  - unfold apiReady. rewrite E. now rewrite E.
Qed.

(** X11. Every widget overwrites [window.onYouTubeIframeAPIReady]: of
    the widgets of a page, the one initialized last is the only one
    whose players are ever created, however often the callback is
    called; the others keep no players. *)
Theorem only_the_last_widget_gets_players (os : list (Options * Options))
    (m k : nat) (this : Widget) :
  nth_error (widgets (Nat.iter m apiReady (initialize_all w os))) k
    = Some this ->
  VideoLibrary.players (library this) =
    if (0 <? m) && (S k =? List.length os)
    then map VideoLibrary.createPlayer
           (VideoLibrary.video_ids (library this))
    else [].
Proof.
  destruct (initialize_all_fields os) as (_ & Hw & Hc).
  assert (Hnew : forall i x,
             nth_error (widgets (initialize_all w os)) i = Some x ->
             VideoLibrary.players (library x) = []).
  { intros i x Hx. rewrite Hw, nth_error_map in Hx.
    destruct (nth_error os i); [|discriminate Hx].
    injection Hx as <-. reflexivity. }
  destruct m as [|m].
  - cbn [Nat.iter Nat.ltb Nat.leb andb]. apply Hnew.
  - rewrite apiReady_again. unfold apiReady. rewrite Hc.
    destruct os as [|o os].
    + intro H. cbn [Nat.ltb Nat.leb andb List.length Nat.eqb].
      eapply Hnew, H.
    + cbn [widgets]. rewrite nth_error_change.
      change (0 <? S m) with true. cbn [andb].
      cbn [List.length]. rewrite Nat.sub_succ, Nat.sub_0_r.
      change (S k =? S (List.length os)) with (k =? List.length os).
      destruct (k =? List.length os).
      * destruct (nth_error _ k) as [x|]; [|discriminate].
        intro H. injection H as <-. reflexivity.
      * apply Hnew.
Qed.

End PageFacts.

Lemma players_ready_does_not_throw_witness :
  exists this',
    Page.onPlayersReady {| Page.Swiper := false; Page.fancybox := false |} 1
      (Page.created {| Page.Swiper := false; Page.fancybox := false |}
         (Page.with_layout Page.defaults (Js.Str "carousel"))
         (Page.with_layout Page.defaults (Js.Str "carousel")))
    = Some this' /\
    VideoLibrary.hidden (Page.library this') = false.
Proof.
  destruct (@players_ready_does_not_throw
              {| Page.Swiper := false; Page.fancybox := false |}
              (Page.with_layout Page.defaults (Js.Str "carousel"))
              (Page.with_layout Page.defaults (Js.Str "carousel"))
              1
              (Page.created {| Page.Swiper := false; Page.fancybox := false |}
                 (Page.with_layout Page.defaults (Js.Str "carousel"))
                 (Page.with_layout Page.defaults (Js.Str "carousel")))
              eq_refl eq_refl) as (this' & H1 & H2 & _).
  exists this'. split; assumption.
Defined.

(** X12. [initialize] leaves options the page can serve: the layout
    [carousel] only where [Swiper] is a function, [playInline] off only
    where fancybox is there, [useLoader] as it was; and, when the
    options it is called with have the layout of [this.options], a
    layout that is one of [grid], [carousel] and [tabs]. *)
Theorem initialize_settles_the_options (w : Page.Window)
    (this_options options : Page.Options) :
  let o := Page.settled w this_options options in
  (Js.strict_eq (Page.layout o) (Js.Str "carousel") = true ->
   Page.Swiper w = true) /\
  (Js.strict_eq (Page.playInline o) (Js.Bool false) = true ->
   Page.fancybox w = true) /\
  Page.useLoader o = Page.useLoader this_options /\
  (Page.layout this_options = Page.layout options ->
   Page.known_layout (Page.layout o) = true).
Proof.
  cbv zeta. split; [apply settled_carousel|].
  split; [apply settled_playInline|].
  split; [apply settled_useLoader|].
  intro H. unfold Page.settled. rewrite <- H.
  destruct (Page.known_layout (Page.layout this_options)) eqn:Ek;
    cbn [negb].
  - destruct (Js.strict_eq (Page.layout this_options) (Js.Str "carousel")
              && negb (Page.Swiper w));
      destruct (_ && negb (Page.fancybox w)); cbn; try exact Ek;
      reflexivity.
  - cbn. destruct (_ && negb (Page.fancybox w)); reflexivity.
Qed.

Lemma initialize_settles_the_options_witness :
  Page.layout (Page.with_layout Page.defaults (Js.Str "carousel")) =
    Page.layout (Page.with_layout Page.defaults (Js.Str "carousel")) /\
  Page.known_layout
    (Page.layout
       (Page.settled {| Page.Swiper := false; Page.fancybox := true |}
          (Page.with_layout Page.defaults (Js.Str "carousel"))
          (Page.with_layout Page.defaults (Js.Str "carousel")))) = true.
Proof.
  split; [reflexivity|].
  refine (proj2 (proj2 (proj2
    (@initialize_settles_the_options
       {| Page.Swiper := false; Page.fancybox := true |}
       (Page.with_layout Page.defaults (Js.Str "carousel"))
       (Page.with_layout Page.defaults (Js.Str "carousel"))))) _).
  reflexivity.
Defined.


Lemma only_the_last_widget_gets_players_witness :
  let w := {| Page.Swiper := true; Page.fancybox := false |} in
  let first := {| Page.ids := "a,b";
                  Page.layout := Js.Str "grid";
                  Page.playInline := Js.Bool true;
                  Page.useLoader := Js.Bool true |} in
  let p := Nat.iter 1 Page.apiReady
             (Page.initialize_all w
                [(first, first); (Page.defaults, Page.defaults)]) in
  nth_error (Page.widgets p) 0 = Some (Page.created w first first) /\
  VideoLibrary.players (Page.library (Page.created w first first)) = [].
Proof.
  cbv zeta. split; [reflexivity|].
  exact (@only_the_last_widget_gets_players
           {| Page.Swiper := true; Page.fancybox := false |}
           [({| Page.ids := "a,b";
                Page.layout := Js.Str "grid";
                Page.playInline := Js.Bool true;
                Page.useLoader := Js.Bool true |},
             {| Page.ids := "a,b";
                Page.layout := Js.Str "grid";
                Page.playInline := Js.Bool true;
                Page.useLoader := Js.Bool true |});
            (Page.defaults, Page.defaults)]
           1 0 _ eq_refl).
Defined.

(** ** Playing inline *)

Section PlaybackFacts.

Import Playback.

Lemma handle_all_app (players : list Player) (gs1 gs2 : list Gesture) :
  handle_all players (gs1 ++ gs2) = handle_all (handle_all players gs1) gs2.
Proof. apply fold_left_app. Qed.

Lemma length_change (i : nat) (f : Player -> Player) (l : list Player) :
  List.length (change i f l) = List.length l.
Proof.
  revert i. induction l as [|p l IH]; intros [|i]; simpl; auto.
Qed.

Lemma nth_error_changed (f : Player -> Player) (l : list Player) (i j : nat) :
  nth_error (change i f l) j =
  if j =? i then option_map f (nth_error l j) else nth_error l j.
Proof.
  revert i j. induction l as [|x l IH]; intros i j.
  - destruct i, j; simpl; try reflexivity; now destruct (j =? i).
  - destruct i, j; simpl; try reflexivity. apply IH.
Qed.

Lemma visible_stopped (players : list Player) :
  visible (stopAllPlayers players) = 0.
Proof. induction players as [|p l IH]; [reflexivity | exact IH]. Qed.

Lemma visible_covered (players : list Player) :
  visible (map covered players) = 0.
Proof. induction players as [|p l IH]; [reflexivity | exact IH]. Qed.

Lemma visible_change (i : nat) (f : Player -> Player) (l : list Player) :
  visible l = 0 -> visible (change i f l) <= 1.
Proof.
  unfold visible. revert i.
  induction l as [|p l IH]; intros i H; [destruct i; simpl; lia|].
  simpl in H. destruct (is_visible p) eqn:E; [discriminate H|].
  destruct i as [|i]; simpl.
  - destruct (is_visible (f p)); simpl; lia.
  - rewrite E. now apply IH.
Qed.

Lemma visible_handle (players : list Player) (g : Gesture) :
  visible (handle players g) <= 1.
Proof.
  destruct g as [i| |]; simpl.
  - apply visible_change, visible_stopped.
  - rewrite visible_stopped. lia.
  - rewrite visible_stopped. lia.
Qed.

Lemma length_handle_all (gs : list Gesture) (players : list Player) :
  List.length (handle_all players gs) = List.length players.
Proof.
  revert players. induction gs as [|g gs IH]; intro players; [reflexivity|].
  unfold handle_all in *. simpl. rewrite IH.
  destruct g; simpl; unfold stopAllPlayers;
    now rewrite ?length_change, length_map.
Qed.

(** X13. Once every player is ready and so covered by its background
    image, whatever clicks, slide changes and shown tabs follow, at
    most one iframe is to be seen. *)
Theorem at_most_one_iframe_is_visible (players : list Player)
    (gs : list Gesture) :
  visible (handle_all (map covered players) gs) <= 1.
Proof.
  destruct gs as [|g gs] using rev_ind.
  - unfold handle_all. simpl. rewrite visible_covered. lia.
  - rewrite handle_all_app. apply visible_handle.
Qed.

(** X14. After a click on the cover of a player, whatever went before,
    that player is the one whose iframe is to be seen and the one told
    to play last; every other player is invisible and was told to stop
    last. *)
Theorem clicked_player_is_the_only_one_playing (players : list Player)
    (gs : list Gesture) (i j : nat) (p : Player) :
  i < List.length players ->
  nth_error (handle_all players (gs ++ [Click i])) j = Some p ->
  invisible p = negb (j =? i) /\
  told p = Some (if j =? i then playVideo else stopVideo).
Proof.
  intros Hi Hp. rewrite handle_all_app in Hp.
  set (ps := handle_all players gs) in *.
  unfold handle_all in Hp. simpl in Hp.
  rewrite nth_error_changed in Hp. unfold stopAllPlayers in Hp.
  rewrite nth_error_map in Hp.
  destruct (nth_error ps j) as [q|]; destruct (j =? i);
    try discriminate Hp; injection Hp as <-; split; reflexivity.
Qed.

End PlaybackFacts.

Lemma clicked_player_is_the_only_one_playing_witness :
  let players :=
    map Playback.covered
      [{| Playback.invisible := false; Playback.told := None |};
       {| Playback.invisible := false; Playback.told := None |}] in
  1 < List.length players /\
  nth_error
    (Playback.handle_all players
       ([Playback.Click 0; Playback.SlideChange] ++ [Playback.Click 1])) 0
    = Some {| Playback.invisible := true;
              Playback.told := Some Playback.stopVideo |} /\
  Playback.invisible {| Playback.invisible := true;
                        Playback.told := Some Playback.stopVideo |}
    = negb (0 =? 1).
Proof.
  cbv zeta. split; [simpl; lia|]. split; [reflexivity|].
  refine (proj1 (@clicked_player_is_the_only_one_playing
                   (map Playback.covered
                      [{| Playback.invisible := false;
                          Playback.told := None |};
                       {| Playback.invisible := false;
                          Playback.told := None |}])
                   [Playback.Click 0; Playback.SlideChange] 1 0 _ _ _)).
  - simpl. lia.
  - reflexivity.
Defined.

(** ** Images that do not load *)

Section Waiting.

Import VideoLibrary.

(** X15. An image of the document that has no width yet, or is not
    complete, when the last player is ready, keeps the widget from
    being ready as long as no [load] event of it arrives, whatever else
    does: an image that failed before is waited for in vain. *)
Theorem image_without_load_event_blocks (ids : list string)
    (before after : list Signal) (player : nat) (document : list Image)
    (img : Image) :
  ready_signals before + 1 = List.length ids ->
  In img document ->
  naturalWidth img = 0 \/ complete img = false ->
  ~ In (Load (element img)) after ->
  let w := run (started ids)
             (before ++ PlayerReady player document :: after) in
  ready_count w = 0 /\ hidden w = true.
Proof.
  intros Hn Hi Hw Hl. cbv zeta.
  assert (Hr : ready_count
                 (run (started ids)
                    (before ++ PlayerReady player document :: after)) = 0).
  { destruct (final_barrier ids before after player document Hn) as [_ Hr].
    rewrite Hr.
    set (b := advance_all after (created document)).
    assert (Hj : justified b).
    { apply justified_advance_all, justified_react.
      unfold justified. simpl. discriminate. }
    destruct (reacted b) eqn:E; [|reflexivity].
    specialize (Hj E). unfold b in Hj. rewrite created_promises in Hj.
    rewrite forallb_forall in Hj.
    set (p := {| target := element img; state := Pending |}).
    assert (Hp : In p (onImagesLoaded document)).
    { unfold onImagesLoaded. apply in_map_iff. exists img.
      split; [reflexivity|]. apply filter_In. split; [assumption|].
      unfold not_loaded. destruct Hw as [-> | ->]; [reflexivity|].
      apply orb_true_r. }
    specialize (Hj (settle_all after p) (in_map _ _ _ Hp)).
    exfalso. apply (@settle_all_not_loaded after p);
      [discriminate | exact Hl |].
    unfold is_fulfilled in Hj.
    destruct (state (settle_all after p)); congruence. }
  split; [exact Hr|].
  assert (Hh : forall l, hidden (run (started ids) l)
                         = (ready_count (run (started ids) l) =? 0))
    by (intro l; apply hidden_run; reflexivity).
  now rewrite Hh, Hr.
Qed.

End Waiting.

Lemma image_without_load_event_blocks_witness :
  let failed := {| VideoLibrary.element := 7;
                   VideoLibrary.naturalWidth := 0;
                   VideoLibrary.complete := true |} in
  let w := VideoLibrary.run (started ["a"%string])
             ([] ++ VideoLibrary.PlayerReady 0 [failed]
                 :: [VideoLibrary.Load 8]) in
  VideoLibrary.ready_count w = 0 /\ VideoLibrary.hidden w = true.
Proof.
  cbv zeta.
  apply (@image_without_load_event_blocks ["a"%string] []
           [VideoLibrary.Load 8] 0
           [{| VideoLibrary.element := 7;
               VideoLibrary.naturalWidth := 0;
               VideoLibrary.complete := true |}]
           {| VideoLibrary.element := 7;
              VideoLibrary.naturalWidth := 0;
              VideoLibrary.complete := true |}).
  - reflexivity.
  - left. reflexivity.
  - left. reflexivity.
  - intros [H|[]]. discriminate H.
Defined.

(** ** The order of the sorted articles *)

Section SortedOrder.

Import ArticleNavigation.

Variable Util : string -> option callback.
Variable this : Plugin.

Lemma flat_map_same (A B : Type) (f g : A -> list B) (l : list A) :
  (forall x, In x l -> f x = g x) -> flat_map f l = flat_map g l.
Proof.
  intro H. induction l as [|x l IH]; simpl; [reflexivity|].
  rewrite H by now left. f_equal. apply IH. intros y Hy. apply H. now right.
Qed.

Lemma rev_flat_map (A B : Type) (f : A -> list B) (l : list A) :
  rev (flat_map f l) = flat_map (fun x => rev (f x)) (rev l).
Proof.
  induction l as [|x l IH]; simpl; [reflexivity|].
  rewrite rev_app_distr, IH, flat_map_app. simpl. now rewrite app_nil_r.
Qed.

Lemma same_id_same_entity (l : list entity) (x y : entity) :
  NoDup (map id l) -> In x l -> In y l -> id x = id y -> x = y.
Proof.
  induction l as [|z l IH]; intros Hn Hx Hy He; [destruct Hx|].
  simpl in Hn. inversion Hn as [|? ? Hz Hn']; subst.
  destruct Hx as [->|Hx], Hy as [->|Hy].
  - reflexivity.
  - exfalso. apply Hz. rewrite He. now apply in_map.
  - exfalso. apply Hz. rewrite <- He. now apply in_map.
  - now apply IH.
Qed.

(** The articles of a section are not touched by the visit of a section
    with another id. *)
Lemma filter_after_take (s s' : entity) (pool : list entity) :
  id s <> id s' ->
  List.filter (belongs s') (List.filter (stays s) pool) =
  List.filter (belongs s') pool.
Proof.
  intro Hd. rewrite filter_filter_both. apply filter_ext. intro a.
  unfold stays, belongs.
  destruct (Js.strict_eq (section_id a) (id s')) eqn:E';
    [|now rewrite andb_false_r].
  destruct (Js.strict_eq (section_id a) (id s)) eqn:E; [|reflexivity].
  apply strict_eq_eq in E, E'. congruence.
Qed.

Lemma visit_sections_order (c : entity) (ss pool acc : list entity) :
  NoDup (map id ss) ->
  snd (visit_sections c ss (pool, acc)) =
  acc ++ flat_map (fun s => if in_category c s
                            then rev (List.filter (belongs s) pool)
                            else []) ss.
Proof.
  revert pool acc. induction ss as [|s ss IH]; intros pool acc Hn; simpl.
  - now rewrite app_nil_r.
  - inversion Hn as [|? ? Hs Hn']; subst.
    destruct (in_category c s) eqn:Hc.
    + unfold take. cbn [fst snd]. rewrite IH by assumption.
      rewrite <- app_assoc. f_equal. f_equal.
      apply flat_map_same. intros s' Hs'.
      destruct (in_category c s'); [|reflexivity].
      rewrite filter_after_take; [reflexivity|].
      intro He. apply Hs. rewrite He. now apply in_map.
    + now apply IH.
Qed.

(** The articles of a section of one category are not touched by the
    visit of a category with another id. *)
Lemma filter_after_category (c c' s : entity) (ss pool : list entity) :
  NoDup (map id ss) -> In s ss -> id c <> id c' ->
  in_category c' s = true ->
  List.filter (belongs s)
    (List.filter (fun a => negb (claimed c ss a)) pool) =
  List.filter (belongs s) pool.
Proof.
  intros Hn Hs Hd Hc'. rewrite filter_filter_both. apply filter_ext.
  intro a. destruct (belongs s a) eqn:Eb; [|now rewrite andb_false_r].
  rewrite andb_true_r. apply negb_true_iff.
  destruct (claimed c ss a) eqn:Ec; [|reflexivity].
  exfalso. unfold claimed in Ec. apply existsb_exists in Ec.
  destruct Ec as (s0 & Hs0 & H0). apply andb_prop in H0.
  destruct H0 as [Hc0 Hb0].
  assert (s0 = s).
  { apply (same_id_same_entity ss); try assumption.
    unfold belongs in *. apply strict_eq_eq in Eb, Hb0. congruence. }
  subst s0. unfold in_category in *.
  apply strict_eq_eq in Hc0, Hc'. congruence.
Qed.

Lemma visit_categories_order (cs ss_in ss pool acc : list entity) :
  sorted_by (chosen_comparator Util this Sections) ss_in = ss ->
  sorted_by (chosen_comparator Util this Sections) ss = ss ->
  NoDup (map id cs) -> NoDup (map id ss) ->
  snd (snd (visit_categories Util this cs (ss_in, (pool, acc)))) =
  acc ++ grouped cs ss (fun s => rev (List.filter (belongs s) pool)).
Proof.
  revert ss_in pool acc.
  induction cs as [|c cs IH]; intros ss_in pool acc Hin Hss Hnc Hns.
  - simpl. now rewrite app_nil_r.
  - simpl in Hnc. apply NoDup_cons_iff in Hnc. destruct Hnc as [Hc Hnc'].
    simpl. cbn [fst snd]. rewrite Hin.
    destruct (visit_sections c ss (pool, acc)) as [pool' acc'] eqn:Hv.
    rewrite (IH ss pool' acc' Hss Hss Hnc' Hns).
    assert (Ha : acc' = snd (visit_sections c ss (pool, acc)))
      by now rewrite Hv.
    assert (Hp : pool' = fst (visit_sections c ss (pool, acc)))
      by now rewrite Hv.
    rewrite visit_sections_order in Ha by assumption.
    rewrite visit_sections_pool in Hp. subst acc' pool'.
    rewrite <- app_assoc. f_equal. unfold grouped. f_equal.
    apply flat_map_same. intros c' Hc'.
    apply flat_map_same. intros s Hs.
    destruct (in_category c' s) eqn:E; [|reflexivity].
    rewrite (@filter_after_category c c' s ss pool); try assumption;
      [reflexivity|].
    intro He. apply Hc. rewrite He. now apply in_map.
Qed.

Lemma NoDup_ids_perm (l l' : list entity) :
  Permutation l l' -> NoDup (map id l) -> NoDup (map id l').
Proof.
  intros Hp Hn. eapply Permutation_NoDup; [|exact Hn].
  now apply Permutation_map.
Qed.

(** X16. With categories of distinct ids, sections of distinct ids and
    a sections comparator that leaves a sorted array as it is,
    [_sortArticles] returns a two-level group-by whose levels do not
    run the same way. For "desc": the categories and the sections as
    their comparators order them, the articles of each section against
    their comparator. For any other order: the categories and the
    sections against their comparators, the articles of each section
    as their comparator orders them. *)
Theorem sorted_articles_are_grouped (cats secs arts : list entity) :
  let cs := sorted_by (chosen_comparator Util this Categories)
              (rev (filtered Util this Categories cats)) in
  let ss := sorted_by (chosen_comparator Util this Sections)
              (rev (filtered Util this Sections secs)) in
  let aa := sorted_by (chosen_comparator Util this Articles)
              (filtered Util this Articles arts) in
  NoDup (map id (filtered Util this Categories cats)) ->
  NoDup (map id (filtered Util this Sections secs)) ->
  sorted_by (chosen_comparator Util this Sections) ss = ss ->
  sortArticles_result Util this cats secs arts =
    if String.eqb (sortOrder (options this)) "desc"
    then grouped cs ss (fun s => rev (List.filter (belongs s) aa))
    else grouped (rev cs) (rev ss) (fun s => List.filter (belongs s) aa).
Proof.
  cbv zeta. intros Hnc Hns Hss.
  destruct (sortArticles_spec Util this cats secs arts) as (Hres & _).
  cbv zeta in Hres. rewrite Hres. clear Hres.
  unfold loops.
  rewrite (@visit_categories_order _ _ _ _ [] eq_refl Hss).
  - cbn [app]. destruct (String.eqb _ _); [reflexivity|].
    unfold grouped. rewrite rev_flat_map.
    apply flat_map_same. intros c _. rewrite rev_flat_map.
    apply flat_map_same. intros s _.
    destruct (in_category c s); [apply rev_involutive | reflexivity].
  - eapply NoDup_ids_perm; [|exact Hnc].
    eapply perm_trans; [apply Permutation_rev|].
    apply Permutation_sym, sorted_by_perm.
  - eapply NoDup_ids_perm; [|exact Hns].
    eapply perm_trans; [apply Permutation_rev|].
    apply Permutation_sym, sorted_by_perm.
Qed.

End SortedOrder.

Lemma sorted_articles_are_grouped_witness :
  ArticleNavigation.sortArticles_result ArticleNavigation.Util_spec
    (ArticleNavigation.plugin ArticleNavigation.defaults)
    [Example.category 1 1; Example.category 2 2]
    [Example.section 10 1 1; Example.section 11 1 2; Example.section 20 2 1]
    [Example.article 100 10 1 Js.Undefined;
     Example.article 101 10 2 Js.Undefined;
     Example.article 110 11 1 Js.Undefined;
     Example.article 200 20 1 Js.Undefined] =
  [Example.article 200 20 1 Js.Undefined;
   Example.article 110 11 1 Js.Undefined;
   Example.article 100 10 1 Js.Undefined;
   Example.article 101 10 2 Js.Undefined].
Proof.
  refine (eq_trans
    (@sorted_articles_are_grouped ArticleNavigation.Util_spec
       (ArticleNavigation.plugin ArticleNavigation.defaults)
       [Example.category 1 1; Example.category 2 2]
       [Example.section 10 1 1; Example.section 11 1 2;
        Example.section 20 2 1]
       [Example.article 100 10 1 Js.Undefined;
        Example.article 101 10 2 Js.Undefined;
        Example.article 110 11 1 Js.Undefined;
        Example.article 200 20 1 Js.Undefined] _ _ _) _).
  - repeat constructor; simpl; intuition discriminate.
  - repeat constructor; simpl; intuition discriminate.
  - reflexivity.
  - reflexivity.
Defined.
